(** * NGO Attendance Manager: the client-side store and its exports

    A shallow embedding of the state container of the single-page
    attendance tool (the [DataProvider] mutation API, the [useLocalStore]
    load effect, the backup import handler and the per-session CSV export),
    followed by the properties its specification states about them.

    Conventions of the embedding.
    - TypeScript record types become Rocq records; an optional field
      [f?: string] is an [option string] ([None] for a missing key or
      [undefined]).
    - Every API entry of [DataProvider] is [setStore (s => ...)]; the
      embedding is the updater function itself, from the old snapshot to
      the new one.
    - A JavaScript string is a [string]; the only characters the code
      inspects (comma, double quote, line feed) are ASCII.
    - Values that cross the untyped boundary ([JSON.parse] returns [any])
      are [json] values. *)

From stdpp Require Import base decidable option list strings gmap.
From Stdlib Require Import Ascii.
From Stdlib Require QArith.


(** ** Data model *)

Abbreviation Uuid := string (only parsing).

Record Member := mkMember {
  member_id : Uuid;
  member_name : string;
  member_email : option string;
  member_phone : option string;
}.

Record Session := mkSession {
  session_id : Uuid;
  session_title : string;
  session_dateISO : string;
  session_notes : option string;
}.

Record AttendanceRecord := mkAttendance {
  sessionId : Uuid;
  memberId : Uuid;
  present : bool;
}.

Record StoreShape := mkStore {
  members : list Member;
  sessions : list Session;
  attendance : list AttendanceRecord;
}.

Definition DEFAULT_STORE : StoreShape :=
  {| members := []; sessions := []; attendance := [] |}.

#[global] Instance Member_eq_dec : EqDecision Member.
Proof. solve_decision. Defined.
#[global] Instance Session_eq_dec : EqDecision Session.
Proof. solve_decision. Defined.
#[global] Instance AttendanceRecord_eq_dec : EqDecision AttendanceRecord.
Proof. solve_decision. Defined.
#[global] Instance StoreShape_eq_dec : EqDecision StoreShape.
Proof. solve_decision. Defined.

(** [Omit<Member, "id">] and [Omit<Session, "id">]: the inputs of the two
    [add] operations. *)
Record MemberInput := mkMemberInput {
  input_member_name : string;
  input_member_email : option string;
  input_member_phone : option string;
}.

Record SessionInput := mkSessionInput {
  input_session_title : string;
  input_session_dateISO : string;
  input_session_notes : option string;
}.

(** [Partial<Member>] and [Partial<Session>]: every key of the entity may
    be present or not, [id] included.  For an optional field the key may
    also be present and hold [undefined] ([Some None]).  A required field
    that is present holds a string, as the declared type of the merged
    object demands. *)
Record MemberPatch := mkMemberPatch {
  patch_member_id : option Uuid;
  patch_member_name : option string;
  patch_member_email : option (option string);
  patch_member_phone : option (option string);
}.

Record SessionPatch := mkSessionPatch {
  patch_session_id : option Uuid;
  patch_session_title : option string;
  patch_session_dateISO : option string;
  patch_session_notes : option (option string);
}.

(** [{ ...m, ...patch }]: the keys of [patch] win over those of [m]. *)
Definition spread_member (m : Member) (patch : MemberPatch) : Member :=
  {| member_id := default (member_id m) (patch_member_id patch);
     member_name := default (member_name m) (patch_member_name patch);
     member_email := default (member_email m) (patch_member_email patch);
     member_phone := default (member_phone m) (patch_member_phone patch) |}.

Definition spread_session (sess : Session) (patch : SessionPatch) : Session :=
  {| session_id := default (session_id sess) (patch_session_id patch);
     session_title := default (session_title sess) (patch_session_title patch);
     session_dateISO :=
       default (session_dateISO sess) (patch_session_dateISO patch);
     session_notes := default (session_notes sess) (patch_session_notes patch) |}.

(** ** Mutation API ([DataProvider]) *)

(** [Array.prototype.findIndex]: the index of the first element that
    satisfies the predicate; [None] stands for the result [-1]. *)
Definition findIndex {A} (P : A -> Prop) `{!forall x, Decision (P x)}
    (l : list A) : option nat :=
  fst <$> list_find P l.

(** [Array.prototype.find]: the first element that satisfies the
    predicate; [None] stands for [undefined]. *)
Definition find {A} (P : A -> Prop) `{!forall x, Decision (P x)}
    (l : list A) : option A :=
  snd <$> list_find P l.

(** The predicate of the scan in [setAttendance]. *)
Definition same_key (sid mid : Uuid) (a : AttendanceRecord) : Prop :=
  sessionId a = sid /\ memberId a = mid.

#[global] Instance same_key_dec sid mid a : Decision (same_key sid mid a).
Proof. unfold same_key. apply _. Defined.

(** [{ ...next[idx], present }]. *)
Definition with_present (present' : bool) (a : AttendanceRecord)
    : AttendanceRecord :=
  {| sessionId := sessionId a; memberId := memberId a; present := present' |}.

(** [addMember]; [fresh] is the value [generateId()] returned. *)
Definition addMember (fresh : Uuid) (input : MemberInput) (s : StoreShape)
    : StoreShape :=
  {| members := members s ++
       [ {| member_id := fresh;
            member_name := input_member_name input;
            member_email := input_member_email input;
            member_phone := input_member_phone input |} ];
     sessions := sessions s;
     attendance := attendance s |}.

Definition updateMember (id : Uuid) (patch : MemberPatch) (s : StoreShape)
    : StoreShape :=
  {| members :=
       (fun m => if decide (member_id m = id) then spread_member m patch else m)
         <$> members s;
     sessions := sessions s;
     attendance := attendance s |}.

Definition removeMember (id : Uuid) (s : StoreShape) : StoreShape :=
  {| members := filter (fun m => member_id m <> id) (members s);
     sessions := sessions s;
     attendance := filter (fun a => memberId a <> id) (attendance s) |}.

Definition addSession (fresh : Uuid) (input : SessionInput) (s : StoreShape)
    : StoreShape :=
  {| members := members s;
     sessions := sessions s ++
       [ {| session_id := fresh;
            session_title := input_session_title input;
            session_dateISO := input_session_dateISO input;
            session_notes := input_session_notes input |} ];
     attendance := attendance s |}.

Definition updateSession (id : Uuid) (patch : SessionPatch) (s : StoreShape)
    : StoreShape :=
  {| members := members s;
     sessions :=
       (fun sess =>
          if decide (session_id sess = id) then spread_session sess patch
          else sess) <$> sessions s;
     attendance := attendance s |}.

Definition removeSession (id : Uuid) (s : StoreShape) : StoreShape :=
  {| members := members s;
     sessions := filter (fun sess => session_id sess <> id) (sessions s);
     attendance := filter (fun a => sessionId a <> id) (attendance s) |}.

(** [setAttendance].  [next] is the copy [[...s.attendance]]; the
    assignment [next[idx] = ...] is [alter] at [idx], which is always in
    range since it comes from [findIndex] on the same list. *)
Definition setAttendance (sid mid : Uuid) (present' : bool) (s : StoreShape)
    : StoreShape :=
  let idx := findIndex (same_key sid mid) (attendance s) in
  let next := attendance s in
  let next :=
    match idx with
    | Some i => alter (with_present present') i next
    | None => next ++ [ {| sessionId := sid; memberId := mid;
                           present := present' |} ]
    end in
  {| members := members s; sessions := sessions s; attendance := next |}.

Definition clearAll (s : StoreShape) : StoreShape := DEFAULT_STORE.

(** ** Values across the untyped boundary *)

(** What [JSON.parse] can return.  A number is kept as a rational; the
    code only ever asks whether it is truthy.  An object is its property
    table, keys in insertion order and pairwise distinct. *)
#[warnings="-register-all"]
Inductive json :=
| JNull
| JBool (b : bool)
| JNum (q : QArith_base.Q)
| JStr (s : string)
| JArr (items : list json)
| JObj (props : list (string * json)).

(** [ToBoolean] on strings and on parsed values. *)
Definition truthy_string (s : string) : bool :=
  match s with EmptyString => false | String _ _ => true end.

Definition truthy (x : json) : bool :=
  match x with
  | JNull => false
  | JBool b => b
  | JNum q => negb (Z.eqb (QArith_base.Qnum q) 0)
  | JStr s => truthy_string s
  | JArr _ | JObj _ => true
  end.

(** [x.k] for one of the keys the code reads ([members], [sessions],
    [attendance]); [None] is [undefined].  Only a plain object carries such
    a key: arrays, strings, numbers and booleans inherit none of them. *)
Definition get_prop (k : string) (x : json) : option json :=
  match x with
  | JObj props => snd <$> find (fun kv => kv.1 = k) props
  | _ => None
  end.

Definition isArray (v : option json) : bool :=
  match v with Some (JArr _) => true | _ => false end.

(** [isStoreShape], read as the condition of an [if]. *)
Definition isStoreShape (x : json) : bool :=
  truthy x
  && isArray (get_prop "members" x)
  && isArray (get_prop "sessions" x)
  && isArray (get_prop "attendance" x).

(** The JSON value of a typed store: what [JSON.stringify] writes for it
    and [JSON.parse] reads back (a key holding [undefined] is left out). *)
Definition optional_prop (k : string) (v : option string)
    : list (string * json) :=
  match v with Some s => [(k, JStr s)] | None => [] end.

Definition member_to_json (m : Member) : json :=
  JObj ([("id", JStr (member_id m)); ("name", JStr (member_name m))]
        ++ optional_prop "email" (member_email m)
        ++ optional_prop "phone" (member_phone m)).

Definition session_to_json (sess : Session) : json :=
  JObj ([("id", JStr (session_id sess)); ("title", JStr (session_title sess));
         ("dateISO", JStr (session_dateISO sess))]
        ++ optional_prop "notes" (session_notes sess)).

Definition attendance_to_json (a : AttendanceRecord) : json :=
  JObj [("sessionId", JStr (sessionId a)); ("memberId", JStr (memberId a));
        ("present", JBool (present a))].

Definition store_to_json (s : StoreShape) : json :=
  JObj [("members", JArr (member_to_json <$> members s));
        ("sessions", JArr (session_to_json <$> sessions s));
        ("attendance", JArr (attendance_to_json <$> attendance s))].

(** ** Exceptions *)

(** A computation either returns or throws; no [catch] of the program
    looks at the thrown value. *)
Inductive outcome (A : Type) :=
| Returned (a : A)
| Thrown.
Arguments Returned {A} a.
Arguments Thrown {A}.

Definition bind {A B} (c : outcome A) (k : A -> outcome B) : outcome B :=
  match c with Returned a => k a | Thrown => Thrown end.

Notation "x <- c ;; k" := (bind c (fun x => k))
  (at level 100, c at next level, right associativity).

(** [try { body } catch { handler }]. *)
Definition try_catch {A} (body handler : outcome A) : outcome A :=
  match body with Returned a => Returned a | Thrown => handler end.

(** ** Persistent store and backup import *)

(** The key [DataProvider] passes to [useLocalStore]. *)
Definition STORE_KEY : string := "ngo-attendance-store".

Section Persistence.
(** [JSON.parse]: the parsed value, or [Thrown] on a syntax error. *)
Variable JSON_parse : string -> outcome json.

(** [localStorage.getItem]; [None] is [null]. *)
Definition getItem (localStorage : gmap string string) (key : string)
    : option string :=
  localStorage !! key.

(** The mount effect of [useLocalStore]: from the state cell (which
    holds [initial] at that point) to the state cell after the effect. *)
Definition load (localStorage : gmap string string) (key : string)
    (state : json) : outcome json :=
  try_catch
    (let raw := getItem localStorage key in
     match raw with
     | Some text =>
         if truthy_string text
         then (data <- JSON_parse text ;; Returned data)
         else Returned state
     | None => Returned state
     end)
    (Returned state).

(** [useLocalStore(STORE_KEY, DEFAULT_STORE)] in [DataProvider]: the
    state cell once the mount effect has run. *)
Definition DataProvider_load (localStorage : gmap string string)
    : outcome json :=
  load localStorage STORE_KEY (store_to_json DEFAULT_STORE).

(** [importJson] of the API: [setStore(json)]. *)
Definition importJson (candidate : json) (state : json) : json := candidate.

(** The statement under [JSON.parse] in the [onload] handler of
    [onImport]: the new state cell and the message alerted, if any. *)
Definition import_candidate (data : json) (state : json)
    : json * option string :=
  if isStoreShape data then (importJson data state, None)
  else (state, Some "Invalid backup format"%string).

(** The [onload] handler of [onImport] on the text of the file. *)
Definition onImport_onload (text : string) (state : json)
    : outcome (json * option string) :=
  try_catch
    (data <- JSON_parse text ;; Returned (import_candidate data state))
    (Returned (state, Some "Failed to parse JSON"%string)).
End Persistence.

(** ** CSV export of a session *)

Definition comma : ascii := ","%char.
Definition dquote : ascii := "034"%char.
Definition newline : ascii := "010"%char.

(** [/[...]/.test(s)] for a character class: some character of [s] is in
    the class. *)
Fixpoint regex_test_class (class : list ascii) (s : string) : bool :=
  match s with
  | EmptyString => false
  | String c rest => bool_decide (c ∈ class) || regex_test_class class rest
  end.

(** [s.replaceAll(pattern, replacement)] for a pattern of one character. *)
Fixpoint replaceAll (pattern : ascii) (replacement : string) (s : string)
    : string :=
  match s with
  | EmptyString => EmptyString
  | String c rest =>
      if decide (c = pattern)
      then replacement +:+ replaceAll pattern replacement rest
      else String c (replaceAll pattern replacement rest)
  end.

(** [Array.prototype.join]. *)
Fixpoint join (sep : string) (l : list string) : string :=
  match l with
  | [] => EmptyString
  | [x] => x
  | x :: rest => x +:+ sep +:+ join sep rest
  end.

(** The field encoder of [exportCsvForSession]. *)
Definition csv_field (field : string) : string :=
  if regex_test_class [dquote; comma; newline] field
  then String dquote
         (replaceAll dquote (String dquote (String dquote EmptyString)) field
          +:+ String dquote EmptyString)
  else field.

(** [attendanceMap]: a [Map] from member id to flag, filled by one scan. *)
Definition attendanceMap (s : StoreShape) (sessionId' : Uuid)
    : gmap string bool :=
  foldl (fun map rec =>
           if decide (sessionId rec = sessionId')
           then <[memberId rec := present rec]> map
           else map)
        ∅ (attendance s).

Definition csv_header : list string :=
  ["Member Name"; "Email"; "Phone"; "Present"; "Session Title"; "Date"]%string.

(** [attendanceMap.get(m.id) ? "Yes" : "No"]. *)
Definition yes_no (v : option bool) : string :=
  match v with Some true => "Yes" | _ => "No" end%string.

(** [v || (the empty string)] on an optional string. *)
Definition or_empty (v : option string) : string :=
  match v with Some x => x | None => EmptyString end.

Definition csv_row (map : gmap string bool) (selected : Session) (m : Member)
    : list string :=
  [member_name m; or_empty (member_email m); or_empty (member_phone m);
   yes_no (map !! member_id m); session_title selected;
   session_dateISO selected].

(** [exportCsvForSession]: the arguments handed to [downloadFile]
    (file name, content, MIME type), or [None] when nothing is selected. *)
Definition exportCsvForSession (s : StoreShape) (sessionId' : Uuid)
    : option (string * string * string) :=
  match find (fun sess => session_id sess = sessionId') (sessions s) with
  | None => None
  | Some selected =>
      let rows :=
        foldl (fun rows m => rows ++ [csv_row (attendanceMap s sessionId') selected m])
              [csv_header] (members s) in
      let csv :=
        join (String newline EmptyString)
             ((fun r => join (String comma EmptyString) (csv_field <$> r)) <$> rows) in
      Some (session_dateISO selected +:+ "-" +:+ session_title selected
              +:+ "-attendance.csv",
            csv, "text/csv")%string
  end.

(** ** Saving the snapshot *)

Section Saving.
(** [JSON.stringify] on a value of the state cell. *)
Variable JSON_stringify : json -> string.
(** Whether the browser accepts a content of the storage (its quota). *)
Variable storage_fits : gmap string string -> bool.

(** [localStorage.setItem]: the storage after the write, or [Thrown] when
    the write is refused. *)
Definition setItem (localStorage : gmap string string) (key value : string)
    : outcome (gmap string string) :=
  let written := <[key := value]> localStorage in
  if storage_fits written then Returned written else Thrown.

(** The second effect of [useLocalStore], run after every change of the
    state cell: the storage it leaves. *)
Definition save (localStorage : gmap string string) (key : string)
    (state : json) : outcome (gmap string string) :=
  try_catch (setItem localStorage key (JSON_stringify state))
            (Returned localStorage).
End Saving.

(** ** Forms of the members and sessions tabs *)

Record MemberForm := mkMemberForm {
  form_name : string;
  form_email : string;
  form_phone : string;
}.

Record SessionForm := mkSessionForm {
  form_title : string;
  form_dateISO : string;
  form_notes : string;
}.

(** [x || undefined] on a string. *)
Definition or_undefined (x : string) : option string :=
  if truthy_string x then Some x else None.

Section Forms.
(** [String.prototype.trim]. *)
Variable trim : string -> string.

(** The [Add] button of [MembersManager]: the store and the form it
    leaves; [fresh] is the id [generateId()] returns inside [addMember]. *)
Definition MembersManager_add (fresh : Uuid) (form : MemberForm)
    (s : StoreShape) : StoreShape * MemberForm :=
  if negb (truthy_string (trim (form_name form))) then (s, form)
  else
    (addMember fresh
       {| input_member_name := trim (form_name form);
          input_member_email := or_undefined (trim (form_email form));
          input_member_phone := or_undefined (trim (form_phone form)) |} s,
     {| form_name := EmptyString; form_email := EmptyString;
        form_phone := EmptyString |}).

(** The [Add] button of [SessionsManager]; [today] is
    [new Date().toISOString().slice(0,10)]. *)
Definition SessionsManager_add (fresh : Uuid) (today : string)
    (form : SessionForm) (s : StoreShape) : StoreShape * SessionForm :=
  if negb (truthy_string (trim (form_title form))) then (s, form)
  else
    (addSession fresh
       {| input_session_title := trim (form_title form);
          input_session_dateISO := form_dateISO form;
          input_session_notes := or_undefined (trim (form_notes form)) |} s,
     {| form_title := EmptyString; form_dateISO := today;
        form_notes := EmptyString |}).
End Forms.

(** ** The attendance tab *)

(** The initial value of the [sessionId] state:
    [store.sessions[0]?.id || (the empty string)]. *)
Definition initial_sessionId (s : StoreShape) : Uuid :=
  match sessions s !! 0 with
  | Some first => if truthy_string (session_id first) then session_id first
                  else EmptyString
  | None => EmptyString
  end.

(** The effect that selects the first session while none is selected. *)
Definition select_effect (s : StoreShape) (sessionId' : Uuid) : Uuid :=
  match sessions s !! 0 with
  | Some first => if negb (truthy_string sessionId') then session_id first
                  else sessionId'
  | None => sessionId'
  end.

(** [selected]. *)
Definition selected_session (s : StoreShape) (sessionId' : Uuid)
    : option Session :=
  find (fun sess => session_id sess = sessionId') (sessions s).

(** [attendanceMap.get(m.id) || false]. *)
Definition shown_present (map : gmap string bool) (id : Uuid) : bool :=
  match map !! id with Some true => true | _ => false end.

(** The click on the toggle of a member's row. *)
Definition toggle_onClick (s : StoreShape) (sessionId' : Uuid)
    (selected : Session) (m : Member) : StoreShape :=
  let present' := shown_present (attendanceMap s sessionId') (member_id m) in
  setAttendance (session_id selected) (member_id m) (negb present') s.

(** ** Vocabulary of the properties *)

(** The composite key of an attendance record. *)
Definition record_key (a : AttendanceRecord) : Uuid * Uuid :=
  (sessionId a, memberId a).

(** At most one record per [(sessionId, memberId)] pair. *)
Definition unique_keys (l : list AttendanceRecord) : Prop :=
  NoDup (record_key <$> l).

(** The number of records that carry a given key. *)
Definition key_count (sid mid : Uuid) (l : list AttendanceRecord) : nat :=
  length (filter (same_key sid mid) l).

(** [x.k] is an array. *)
Definition has_array_field (k : string) (x : json) : Prop :=
  exists items, get_prop k x = Some (JArr items).

(** The empty store as it sits in the state cell. *)
Definition empty_store_json : json :=
  JObj [("members"%string, JArr []); ("sessions"%string, JArr []);
        ("attendance"%string, JArr [])].

(** The characters of a string, and the presence of one of them. *)
Abbreviation chars := String.list_ascii_of_string (only parsing).

Definition contains_char (c : ascii) (s : string) : Prop :=
  c ∈ chars s.

#[global] Instance contains_char_dec c s : Decision (contains_char c s).
Proof. unfold contains_char. apply _. Defined.

(** Standard CSV quoting on characters: every double quote doubled, the
    whole wrapped in double quotes. *)
Definition quoted_chars (l : list ascii) : list ascii :=
  dquote :: (l ≫= fun c => if decide (c = dquote) then [dquote; dquote] else [c])
  ++ [dquote].

(** The example field of the specification: Jane, a comma, a space, then
    The Lead between double quotes; and its expected encoding, in which
    each of the two quotes is doubled and the whole is wrapped in quotes. *)
Definition jane_field : string :=
  "Jane, " +:+ String dquote ("The Lead" +:+ String dquote EmptyString).

Definition jane_encoded : string :=
  String dquote
    ("Jane, " +:+ String dquote (String dquote
       ("The Lead" +:+ String dquote (String dquote (String dquote EmptyString))))).

(** The flag of the last record of the list that carries the key. *)
Definition last_flag (sid mid : Uuid) (l : list AttendanceRecord) : option bool :=
  present <$> last (filter (same_key sid mid) l).

(** Some record of the list carries the key with [present = true]. *)
Definition marked_present (sid mid : Uuid) (l : list AttendanceRecord) : Prop :=
  exists a, a ∈ l /\ same_key sid mid a /\ present a = true.

#[global] Instance marked_present_dec sid mid l : Decision (marked_present sid mid l).
Proof.
  refine (cast_if (decide (Exists (fun a => same_key sid mid a /\ present a = true) l)));
    unfold marked_present; rewrite Exists_exists in *; naive_solver.
Defined.

(** The text of a table: fields encoded and joined by commas, rows joined
    by line feeds. *)
Definition csv_text (rows : list (list string)) : string :=
  join (String newline EmptyString)
       ((fun r => join (String comma EmptyString) (csv_field <$> r)) <$> rows).

(** The row of a member with a given fourth column. *)
Definition member_row (selected : Session) (m : Member) (yes : bool)
    : list string :=
  [member_name m; or_empty (member_email m); or_empty (member_phone m);
   if yes then "Yes" else "No"; session_title selected;
   session_dateISO selected]%string.

(** The export as the specification words it: [Yes] when an attendance
    record for the session and the member exists with [present] true. *)
Definition claimed_rows (s : StoreShape) (selected : Session)
    : list (list string) :=
  csv_header ::
  ((fun m => member_row selected m
               (bool_decide (marked_present (session_id selected) (member_id m)
                               (attendance s))))
     <$> members s).

(** The export with the last record of a key deciding the column. *)
Definition last_wins_rows (s : StoreShape) (selected : Session)
    : list (list string) :=
  csv_header ::
  ((fun m => member_row selected m
               (bool_decide (last_flag (session_id selected) (member_id m)
                               (attendance s) = Some true)))
     <$> members s).

Definition csv_file_name (selected : Session) : string :=
  session_dateISO selected +:+ "-" +:+ session_title selected
    +:+ "-attendance.csv".

(** A store in which one key has two records that disagree, as an
    imported backup may hold. *)
Definition duplicate_key_store : StoreShape :=
  {| members := [mkMember "m1" "Ann" None None];
     sessions := [mkSession "s1" "Week 1" "2025-01-01" None];
     attendance := [mkAttendance "s1" "m1" true; mkAttendance "s1" "m1" false] |}.

(** The scenario of the specification: one member, one session, the
    member marked present. *)
Definition scenario_store : StoreShape :=
  setAttendance "s1" "m1" true
    (addSession "s1" (mkSessionInput "Week 1" "2025-01-01" None)
       (addMember "m1" (mkMemberInput "Ann" None None) DEFAULT_STORE)).

(** Every attendance record refers to a member and to a session of the
    store. *)
Definition referential_integrity (s : StoreShape) : Prop :=
  Forall (fun a => memberId a ∈ (member_id <$> members s) /\
                   sessionId a ∈ (session_id <$> sessions s))
         (attendance s).

(** Doubling of the double quotes, on characters. *)
Definition double_quotes (l : list ascii) : list ascii :=
  l ≫= fun c => if decide (c = dquote) then [dquote; dquote] else [c].

(** * Properties *)

(** ** [findIndex] and [find] *)

Section find_facts.
Context {A : Type} (P : A -> Prop) `{!forall x, Decision (P x)}.

Lemma findIndex_Some (l : list A) (i : nat) :
  findIndex P l = Some i <->
  exists x, l !! i = Some x /\ P x /\
            forall j y, l !! j = Some y -> j < i -> ~ P y.
Proof.
  unfold findIndex. rewrite fmap_Some. split.
  - intros [[j x] [Hfind ->]]. exists x. simpl. by apply list_find_Some in Hfind.
  - intros (x & Hx). exists (i, x). split; [|done]. by apply list_find_Some.
Qed.

Lemma findIndex_None (l : list A) :
  findIndex P l = None <-> Forall (fun x => ~ P x) l.
Proof. unfold findIndex. by rewrite fmap_None, list_find_None. Qed.

Lemma findIndex_is_Some (l : list A) :
  is_Some (findIndex P l) <-> exists x, x ∈ l /\ P x.
Proof.
  split.
  - intros [i Hi]. apply findIndex_Some in Hi as (x & Hx & HP & _).
    exists x. split; [by eapply list_elem_of_lookup_2|done].
  - intros (x & Hin & HP). unfold findIndex. apply fmap_is_Some.
    by eapply list_find_elem_of.
Qed.

Lemma find_Some (l : list A) (x : A) :
  find P l = Some x <->
  exists i, l !! i = Some x /\ P x /\
            forall j y, l !! j = Some y -> j < i -> ~ P y.
Proof.
  unfold find. rewrite fmap_Some. split.
  - intros [[i y] [Hfind ->]]. exists i. simpl. by apply list_find_Some in Hfind.
  - intros (i & Hi). exists (i, x). split; [|done]. by apply list_find_Some.
Qed.

(** Rewriting an element in place does not move the first match when the
    rewrite neither creates nor destroys matches. *)
Lemma findIndex_alter (f : A -> A) (l : list A) (i : nat) :
  (forall x, P (f x) <-> P x) ->
  findIndex P (alter f i l) = findIndex P l.
Proof.
  intros Hf. destruct (findIndex P l) as [k|] eqn:Hk.
  - apply findIndex_Some in Hk as (x & Hx & HP & Hfirst).
    apply findIndex_Some. destruct (decide (i = k)) as [->|Hne].
    + exists (f x). rewrite list_lookup_alter_eq, Hx. split; [done|].
      split; [by apply Hf|]. intros j y Hj Hlt.
      rewrite list_lookup_alter_ne in Hj by lia. eauto.
    + exists x. rewrite list_lookup_alter_ne by done. split; [done|].
      split; [done|]. intros j y Hj Hlt.
      rewrite list_lookup_alter in Hj. case_decide as Hij.
      * apply fmap_Some in Hj as (z & Hz & ->). rewrite Hf.
        subst j. eauto.
      * eauto.
  - apply findIndex_None. apply findIndex_None in Hk.
    rewrite Forall_lookup in Hk. apply Forall_lookup. intros j y Hj.
    rewrite list_lookup_alter in Hj. case_decide as Hij.
    + apply fmap_Some in Hj as (z & Hz & ->). rewrite Hf. eauto.
    + eauto.
Qed.

(** The first match of a list extended by one matching element, when
    the list itself holds none. *)
Lemma findIndex_snoc_fresh (l : list A) (x : A) :
  findIndex P l = None -> P x -> findIndex P (l ++ [x]) = Some (length l).
Proof.
  intros Hnone HP. apply findIndex_None in Hnone.
  apply findIndex_Some. exists x. split; [by apply list_lookup_middle|].
  split; [done|]. intros j y Hj Hlt.
  rewrite lookup_app_l in Hj by done.
  rewrite Forall_lookup in Hnone. eauto.
Qed.
End find_facts.

(** ** [setAttendance] on the attendance list *)

Lemma with_present_same_key sid mid p a :
  same_key sid mid (with_present p a) <-> same_key sid mid a.
Proof. done. Qed.

Lemma with_present_idemp p a : with_present p (with_present p a) = with_present p a.
Proof. done. Qed.

Lemma setAttendance_found sid mid p s i :
  findIndex (same_key sid mid) (attendance s) = Some i ->
  attendance (setAttendance sid mid p s) = alter (with_present p) i (attendance s).
Proof. intros H. unfold setAttendance. by rewrite H. Qed.

Lemma setAttendance_fresh sid mid p s :
  findIndex (same_key sid mid) (attendance s) = None ->
  attendance (setAttendance sid mid p s)
  = attendance s ++ [ {| sessionId := sid; memberId := mid; present := p |} ].
Proof. intros H. unfold setAttendance. by rewrite H. Qed.

Lemma key_count_alter sid mid p i (l : list AttendanceRecord) :
  key_count sid mid (alter (with_present p) i l) = key_count sid mid l.
Proof.
  unfold key_count. revert i. induction l as [|a l IH]; intros [|i]; simpl; [done..| |].
  - rewrite !filter_cons.
    destruct (decide (same_key sid mid (with_present p a))) as [H|H];
      destruct (decide (same_key sid mid a)); try done;
      by rewrite with_present_same_key in H.
  - rewrite !filter_cons.
    destruct (decide (same_key sid mid a)); [cbn [length]; f_equal|]; apply IH.
Qed.

Lemma key_count_absent sid mid (l : list AttendanceRecord) :
  Forall (fun a => ~ same_key sid mid a) l -> key_count sid mid l = 0.
Proof.
  unfold key_count. intros Hall.
  induction l as [|a l IH]; [done|].
  apply Forall_cons in Hall as [Ha Hl].
  rewrite filter_cons_False; [by apply IH|done].
Qed.

Lemma same_key_record_key sid mid a :
  same_key sid mid a <-> record_key a = (sid, mid).
Proof.
  unfold same_key, record_key. split.
  - by intros [-> ->].
  - by intros [= -> ->].
Qed.

Lemma key_count_unique sid mid (l : list AttendanceRecord) a :
  unique_keys l -> a ∈ l -> same_key sid mid a -> key_count sid mid l = 1.
Proof.
  unfold unique_keys, key_count. intros Hnd Hin Hkey.
  induction l as [|x l IH]; [by apply elem_of_nil in Hin|].
  rewrite fmap_cons in Hnd. apply NoDup_cons in Hnd as [Hx Hnd].
  apply elem_of_cons in Hin as [<-|Hin].
  - rewrite filter_cons_True by done. simpl. f_equal.
    apply (key_count_absent sid mid). apply Forall_forall. intros y Hy Hykey.
    apply Hx. apply list_elem_of_fmap. exists y. split; [|done].
    apply same_key_record_key in Hkey, Hykey. congruence.
  - rewrite filter_cons_False; [by apply IH|].
    intros Hxkey. apply Hx. apply list_elem_of_fmap. exists a. split; [|done].
    apply same_key_record_key in Hkey, Hxkey. congruence.
Qed.

Lemma alter_as_insert {A} (f : A -> A) (l : list A) i x :
  l !! i = Some x -> alter f i l = <[i := f x]> l.
Proof.
  intros Hx. apply list_eq. intros j.
  apply lookup_lt_Some in Hx as Hlt.
  destruct (decide (i = j)) as [<-|Hne].
  - by rewrite list_lookup_alter_eq, list_lookup_insert_eq, Hx.
  - by rewrite list_lookup_alter_ne, list_lookup_insert_ne.
Qed.

(** C1. [setAttendance] is an upsert on the attendance list.  When some
    record carries the key [(sid, mid)], the first such record (the one the
    scan stops at) has its [present] flag overwritten by the given value and
    the list keeps its length, so nothing is appended; when no record
    carries the key, the new list is the old one followed by the record
    [{sessionId; memberId; present}]. *)
Theorem setAttendance_upsert (s : StoreShape) (sid mid : Uuid) (p : bool) :
  ((exists a, a ∈ attendance s /\ sessionId a = sid /\ memberId a = mid) ->
   exists i a,
     attendance s !! i = Some a /\
     (sessionId a = sid /\ memberId a = mid) /\
     (forall j b, attendance s !! j = Some b -> j < i ->
                  ~ (sessionId b = sid /\ memberId b = mid)) /\
     attendance (setAttendance sid mid p s)
     = <[i := {| sessionId := sessionId a; memberId := memberId a;
                 present := p |}]> (attendance s) /\
     length (attendance (setAttendance sid mid p s)) = length (attendance s))
  /\
  ((~ exists a, a ∈ attendance s /\ sessionId a = sid /\ memberId a = mid) ->
   attendance (setAttendance sid mid p s)
   = attendance s ++ [ {| sessionId := sid; memberId := mid; present := p |} ]).
Proof.
  split.
  - intros Hex. apply (findIndex_is_Some (same_key sid mid)) in Hex as [i Hi].
    pose proof (setAttendance_found _ _ p _ _ Hi) as Hatt.
    apply findIndex_Some in Hi as (a & Ha & Hkey & Hfirst).
    exists i, a. split; [done|]. split; [exact Hkey|]. split; [exact Hfirst|].
    rewrite Hatt. split; [|apply length_alter].
    by rewrite (alter_as_insert _ _ _ a).
  - intros Hno. apply setAttendance_fresh.
    destruct (findIndex (same_key sid mid) (attendance s)) as [i|] eqn:Hi; [|done].
    destruct Hno. apply (findIndex_is_Some (same_key sid mid)). by exists i.
Qed.

Lemma setAttendance_upsert_witness :
  (exists i a,
     [mkAttendance "s1" "m0" true] !! i = Some a /\
     (sessionId a = "s1"%string /\ memberId a = "m0"%string) /\
     (forall j b, [mkAttendance "s1" "m0" true] !! j = Some b -> j < i ->
                  ~ (sessionId b = "s1"%string /\ memberId b = "m0"%string)) /\
     attendance (setAttendance "s1" "m0" false
                   (mkStore [] [] [mkAttendance "s1" "m0" true]))
     = <[i := {| sessionId := sessionId a; memberId := memberId a;
                 present := false |}]> [mkAttendance "s1" "m0" true] /\
     length (attendance (setAttendance "s1" "m0" false
                           (mkStore [] [] [mkAttendance "s1" "m0" true])))
     = 1)
  /\
  attendance (setAttendance "s1" "m1" true
                (mkStore [] [] [mkAttendance "s1" "m0" true]))
  = [mkAttendance "s1" "m0" true; mkAttendance "s1" "m1" true].
Proof.
  split.
  - apply (proj1 (setAttendance_upsert
                    (mkStore [] [] [mkAttendance "s1" "m0" true]) "s1" "m0" false)).
    exists (mkAttendance "s1" "m0" true). split; [|done].
    simpl. apply list_elem_of_singleton. reflexivity.
  - apply (proj2 (setAttendance_upsert
                    (mkStore [] [] [mkAttendance "s1" "m0" true]) "s1" "m1" true)).
    intros (a & Hin & _ & Hmid). simpl in Hin.
    apply list_elem_of_singleton in Hin. subst a. simpl in Hmid. discriminate.
Defined.

(** C10. [setAttendance] touches neither [members] nor [sessions]; and
    when a record with the key exists, the attendance list keeps its length
    and order: one position [i] holds the matched record, every other
    position holds the record it held before, and the record at [i] keeps
    its [sessionId] and [memberId] (only [present] may differ). *)
Theorem setAttendance_frame (s : StoreShape) (sid mid : Uuid) (p : bool) :
  members (setAttendance sid mid p s) = members s /\
  sessions (setAttendance sid mid p s) = sessions s /\
  ((exists a, a ∈ attendance s /\ sessionId a = sid /\ memberId a = mid) ->
   length (attendance (setAttendance sid mid p s)) = length (attendance s) /\
   exists i a a',
     attendance s !! i = Some a /\
     (sessionId a = sid /\ memberId a = mid) /\
     attendance (setAttendance sid mid p s) !! i = Some a' /\
     sessionId a' = sessionId a /\ memberId a' = memberId a /\
     forall j, j <> i ->
       attendance (setAttendance sid mid p s) !! j = attendance s !! j).
Proof.
  split; [done|]. split; [done|].
  intros Hex. apply (findIndex_is_Some (same_key sid mid)) in Hex as [i Hi].
  rewrite (setAttendance_found _ _ p _ _ Hi).
  apply findIndex_Some in Hi as (a & Ha & Hkey & _).
  split; [apply length_alter|].
  exists i, a, (with_present p a). split; [done|]. split; [exact Hkey|].
  split; [by rewrite list_lookup_alter_eq, Ha|].
  split; [done|]. split; [done|].
  intros j Hj. by apply list_lookup_alter_ne.
Qed.

Lemma setAttendance_frame_witness :
  length (attendance (setAttendance "s1" "m1" false
            (mkStore [] [] [mkAttendance "s1" "m0" true;
                            mkAttendance "s1" "m1" true])))
  = 2.
Proof.
  apply (proj2 (proj2 (setAttendance_frame
           (mkStore [] [] [mkAttendance "s1" "m0" true;
                           mkAttendance "s1" "m1" true]) "s1" "m1" false))).
  exists (mkAttendance "s1" "m1" true). split; [|done].
  simpl. apply list_elem_of_lookup. by exists 1.
Defined.

(** C5. On a store with at most one attendance record per key, applying
    [setAttendance] twice with the same arguments leaves exactly one record
    with that key, and the second application returns the store the first
    one returned. *)
Theorem setAttendance_idempotent (s : StoreShape) (sid mid : Uuid) (p : bool) :
  unique_keys (attendance s) ->
  key_count sid mid
    (attendance (setAttendance sid mid p (setAttendance sid mid p s))) = 1
  /\ setAttendance sid mid p (setAttendance sid mid p s)
     = setAttendance sid mid p s.
Proof.
  intros Huniq.
  assert (setAttendance sid mid p (setAttendance sid mid p s)
          = setAttendance sid mid p s) as Hidem.
  { destruct (findIndex (same_key sid mid) (attendance s)) as [i|] eqn:Hi.
    - unfold setAttendance at 1. cbn [members sessions].
      rewrite (setAttendance_found _ _ p _ _ Hi).
      rewrite findIndex_alter by apply with_present_same_key. rewrite Hi.
      rewrite list_alter_alter_eq.
      unfold setAttendance. rewrite Hi. reflexivity.
    - unfold setAttendance at 1. cbn [members sessions].
      rewrite (setAttendance_fresh _ _ p _ Hi).
      rewrite (findIndex_snoc_fresh _ _ _ Hi) by done.
      unfold setAttendance. rewrite Hi. f_equal.
      rewrite alter_app_r_alt by done. by rewrite Nat.sub_diag. }
  split; [|done]. rewrite Hidem.
  destruct (findIndex (same_key sid mid) (attendance s)) as [i|] eqn:Hi.
  - rewrite (setAttendance_found _ _ p _ _ Hi), key_count_alter.
    apply findIndex_Some in Hi as (a & Ha & Hkey & _).
    apply (key_count_unique _ _ _ a); [done| |done].
    by eapply list_elem_of_lookup_2.
  - rewrite (setAttendance_fresh _ _ p _ Hi).
    apply findIndex_None in Hi. unfold key_count.
    rewrite filter_app, length_app. fold (key_count sid mid (attendance s)).
    rewrite key_count_absent by done.
    by rewrite filter_cons_True.
Qed.

Lemma setAttendance_idempotent_witness :
  key_count "s1" "m1"
    (attendance (setAttendance "s1" "m1" true (setAttendance "s1" "m1" true
       (mkStore [] [] [mkAttendance "s1" "m0" true])))) = 1
  /\ setAttendance "s1" "m1" true (setAttendance "s1" "m1" true
       (mkStore [] [] [mkAttendance "s1" "m0" true]))
     = setAttendance "s1" "m1" true (mkStore [] [] [mkAttendance "s1" "m0" true]).
Proof.
  apply (setAttendance_idempotent
           (mkStore [] [] [mkAttendance "s1" "m0" true]) "s1" "m1" true).
  unfold unique_keys. simpl. apply NoDup_singleton.
Defined.

(** ** Removal cascades *)

(** C2. After [removeMember id] no member has the id, no attendance record
    refers to it as [memberId], and [sessions] is untouched; after
    [removeSession id] no session has the id, no attendance record refers
    to it as [sessionId], and [members] is untouched. *)
Theorem remove_cascade (s : StoreShape) (id : Uuid) :
  (Forall (fun m => member_id m <> id) (members (removeMember id s)) /\
   Forall (fun a => memberId a <> id) (attendance (removeMember id s)) /\
   sessions (removeMember id s) = sessions s)
  /\
  (Forall (fun sess => session_id sess <> id) (sessions (removeSession id s)) /\
   Forall (fun a => sessionId a <> id) (attendance (removeSession id s)) /\
   members (removeSession id s) = members s).
Proof.
  unfold removeMember, removeSession. cbn [members sessions attendance].
  repeat split; apply Forall_forall; intros x Hx;
    by apply list_elem_of_filter in Hx as [Hx _].
Qed.

(** What survives a removal is exactly what did not refer to the id, in
    the order it had. *)
Lemma removeMember_keeps (s : StoreShape) (id : Uuid) (a : AttendanceRecord) :
  a ∈ attendance (removeMember id s) <-> memberId a <> id /\ a ∈ attendance s.
Proof. apply (list_elem_of_filter (fun a => memberId a <> id)). Qed.

Lemma removeSession_keeps (s : StoreShape) (id : Uuid) (a : AttendanceRecord) :
  a ∈ attendance (removeSession id s) <-> sessionId a <> id /\ a ∈ attendance s.
Proof. apply (list_elem_of_filter (fun a => sessionId a <> id)). Qed.

(** ** Updates *)

Lemma fmap_if_absent {A} (P : A -> Prop) `{!forall x, Decision (P x)}
    (f : A -> A) (l : list A) :
  Forall (fun x => ~ P x) l -> (fun x => if decide (P x) then f x else x) <$> l = l.
Proof.
  intros Hall. induction l as [|x l IH]; [done|].
  apply Forall_cons in Hall as [Hx Hl]. rewrite fmap_cons.
  rewrite decide_False by done. f_equal. by apply IH.
Qed.

(** C9. [updateMember] with an id that no member has, and [updateSession]
    with an id that no session has, return the store they were given, for
    every patch; the functions have no other outcome. *)
Theorem update_unknown_id_noop (s : StoreShape) (id : Uuid)
    (mpatch : MemberPatch) (spatch : SessionPatch) :
  (Forall (fun m => member_id m <> id) (members s) ->
   updateMember id mpatch s = s)
  /\
  (Forall (fun sess => session_id sess <> id) (sessions s) ->
   updateSession id spatch s = s).
Proof.
  split; intros Hall; destruct s as [ms ss att]; unfold updateMember, updateSession;
    cbn [members sessions attendance] in *; f_equal.
  - by apply (fmap_if_absent (fun m => member_id m = id)).
  - by apply (fmap_if_absent (fun sess => session_id sess = id)).
Qed.

Lemma update_unknown_id_noop_witness :
  updateMember "m9" (mkMemberPatch (Some "m7") (Some "Zed") None None)
    (mkStore [mkMember "m1" "Ann" None None] [] [])
  = mkStore [mkMember "m1" "Ann" None None] [] [].
Proof.
  apply (proj1 (update_unknown_id_noop
                  (mkStore [mkMember "m1" "Ann" None None] [] []) "m9"
                  (mkMemberPatch (Some "m7") (Some "Zed") None None)
                  (mkSessionPatch None None None None))).
  simpl. apply Forall_cons. split; [discriminate|apply Forall_nil_2].
Defined.

(** C6, as stated, fails: a patch is a [Partial<Member>], which may carry
    an [id], and the spread lets it overwrite the id of the member. *)
Lemma updateMember_id_patch_counterexample :
  member_id <$> members
    (updateMember "m1" (mkMemberPatch (Some "m2") None None None)
       (mkStore [mkMember "m1" "Ann" None None] [] []))
  <> member_id <$> members (mkStore [mkMember "m1" "Ann" None None] [] []).
Proof. discriminate. Qed.

(** C6, amended.  The ids after an update are the ids before with the
    patch's [id], if it carries one, written over each occurrence of the
    target id.  Hence a patch that carries no [id] key, or carries the id
    it is applied to, leaves the list of ids as it was; this holds for
    [updateMember] and for [updateSession]. *)
Theorem update_preserves_ids (s : StoreShape) (id : Uuid)
    (mpatch : MemberPatch) (spatch : SessionPatch) :
  (member_id <$> members (updateMember id mpatch s)
   = (fun i => if decide (i = id) then default i (patch_member_id mpatch) else i)
       <$> (member_id <$> members s))
  /\
  (session_id <$> sessions (updateSession id spatch s)
   = (fun i => if decide (i = id) then default i (patch_session_id spatch) else i)
       <$> (session_id <$> sessions s))
  /\
  (patch_member_id mpatch = None \/ patch_member_id mpatch = Some id ->
   member_id <$> members (updateMember id mpatch s) = member_id <$> members s)
  /\
  (patch_session_id spatch = None \/ patch_session_id spatch = Some id ->
   session_id <$> sessions (updateSession id spatch s) = session_id <$> sessions s).
Proof.
  unfold updateMember, updateSession. cbn [members sessions].
  assert (forall l : list Member,
    member_id <$> ((fun m => if decide (member_id m = id)
                             then spread_member m mpatch else m) <$> l)
    = (fun i => if decide (i = id) then default i (patch_member_id mpatch) else i)
        <$> (member_id <$> l)) as Hm.
  { intros l. rewrite <-!list_fmap_compose. apply list_fmap_ext.
    intros _ m _. simpl. by destruct (decide (member_id m = id)). }
  assert (forall l : list Session,
    session_id <$> ((fun x => if decide (session_id x = id)
                              then spread_session x spatch else x) <$> l)
    = (fun i => if decide (i = id) then default i (patch_session_id spatch) else i)
        <$> (session_id <$> l)) as Hs.
  { intros l. rewrite <-!list_fmap_compose. apply list_fmap_ext.
    intros _ x _. simpl. by destruct (decide (session_id x = id)). }
  split; [apply Hm|]. split; [apply Hs|]. split.
  - intros Hp. rewrite Hm. rewrite <-(list_fmap_id (member_id <$> members s)) at 2.
    apply list_fmap_ext. intros _ i _.
    destruct (decide (i = id)) as [->|]; [|done]. by destruct Hp as [-> | ->].
  - intros Hp. rewrite Hs. rewrite <-(list_fmap_id (session_id <$> sessions s)) at 2.
    apply list_fmap_ext. intros _ i _.
    destruct (decide (i = id)) as [->|]; [|done]. by destruct Hp as [-> | ->].
Qed.

Lemma update_preserves_ids_witness :
  member_id <$> members
    (updateMember "m1" (mkMemberPatch None (Some "Anna") None None)
       (mkStore [mkMember "m1" "Ann" None None] [] []))
  = member_id <$> members (mkStore [mkMember "m1" "Ann" None None] [] []).
Proof.
  apply (proj1 (proj2 (proj2 (update_preserves_ids
           (mkStore [mkMember "m1" "Ann" None None] [] []) "m1"
           (mkMemberPatch None (Some "Anna") None None)
           (mkSessionPatch None None None None))))).
  by left.
Defined.

(** ** Backup import *)

Lemma isArray_true (v : option json) :
  isArray v = true <-> exists items, v = Some (JArr items).
Proof.
  split.
  - destruct v as [[]|]; try discriminate. eauto.
  - by intros [items ->].
Qed.

Lemma isStoreShape_true (x : json) :
  isStoreShape x = true <->
  has_array_field "members" x /\ has_array_field "sessions" x /\
  has_array_field "attendance" x.
Proof.
  unfold isStoreShape, has_array_field. rewrite !andb_true_iff, !isArray_true.
  split; [tauto|]. intros (Hm & Hs & Ha). split_and!; try done.
  destruct Hm as [items Hm]. by destruct x.
Qed.

(** The API entry itself replaces the state cell by whatever it is handed;
    the shape check is the business of its one caller. *)
Lemma importJson_replaces (candidate state : json) :
  importJson candidate state = candidate.
Proof. done. Qed.

(** Every typed store passes the shape check. *)
Lemma isStoreShape_store_to_json (s : StoreShape) :
  isStoreShape (store_to_json s) = true.
Proof. done. Qed.

(** C3. Import of a parsed candidate.  A candidate that lacks one of the
    array fields [members], [sessions], [attendance] leaves the snapshot as
    it was and the user is alerted of an invalid backup format; a candidate
    that has the three array fields replaces the snapshot as a whole, with
    no message. *)
Theorem import_candidate_shape_check (candidate state : json) :
  (~ (has_array_field "members" candidate /\
      has_array_field "sessions" candidate /\
      has_array_field "attendance" candidate) ->
   import_candidate candidate state = (state, Some "Invalid backup format"%string))
  /\
  (has_array_field "members" candidate /\
   has_array_field "sessions" candidate /\
   has_array_field "attendance" candidate ->
   import_candidate candidate state = (candidate, None)).
Proof.
  unfold import_candidate. split; intros H.
  - destruct (isStoreShape candidate) eqn:Hshape; [|done].
    by apply isStoreShape_true in Hshape.
  - apply isStoreShape_true in H. by rewrite H.
Qed.

Lemma import_candidate_shape_check_witness :
  import_candidate
    (JObj [("members"%string, JArr []); ("sessions"%string, JStr "none")])
    empty_store_json
  = (empty_store_json, Some "Invalid backup format"%string)
  /\
  import_candidate
    (JObj [("attendance"%string, JArr []); ("sessions"%string, JArr []);
           ("members"%string, JArr [JNull])])
    empty_store_json
  = (JObj [("attendance"%string, JArr []); ("sessions"%string, JArr []);
           ("members"%string, JArr [JNull])], None).
Proof.
  split.
  - apply (proj1 (import_candidate_shape_check
       (JObj [("members"%string, JArr []); ("sessions"%string, JStr "none")])
       empty_store_json)).
    intros (_ & [items Hs] & _). vm_compute in Hs. discriminate.
  - apply (proj2 (import_candidate_shape_check
       (JObj [("attendance"%string, JArr []); ("sessions"%string, JArr []);
              ("members"%string, JArr [JNull])])
       empty_store_json)).
    unfold has_array_field. split_and!; eexists; vm_compute; reflexivity.
Defined.

(** The handler on the text of a file: a text that parses goes through
    the shape check, a text that does not is reported and changes nothing. *)
Lemma onImport_onload_parsed parse text data state :
  parse text = Returned data ->
  onImport_onload parse text state = Returned (import_candidate data state).
Proof. intros H. unfold onImport_onload. by rewrite H. Qed.

Lemma onImport_onload_unparsable parse text state :
  parse text = Thrown ->
  onImport_onload parse text state
  = Returned (state, Some "Failed to parse JSON"%string).
Proof. intros H. unfold onImport_onload. by rewrite H. Qed.

(** ** Load *)

(** C8. Whatever the storage slot holds, the load effect returns (it never
    throws); when the slot is absent, or holds a text that [JSON.parse]
    rejects, the state cell holds the empty store
    [{members: [], sessions: [], attendance: []}]. *)
Theorem load_never_throws (parse : string -> outcome json)
    (localStorage : gmap string string) :
  (exists state, DataProvider_load parse localStorage = Returned state)
  /\
  (localStorage !! STORE_KEY = None ->
   DataProvider_load parse localStorage = Returned empty_store_json)
  /\
  (forall text, localStorage !! STORE_KEY = Some text -> parse text = Thrown ->
   DataProvider_load parse localStorage = Returned empty_store_json).
Proof.
  unfold DataProvider_load, load, getItem. split_and!.
  - destruct (localStorage !! STORE_KEY) as [text|]; [|by eexists].
    destruct (truthy_string text); [|by eexists].
    destruct (parse text); by eexists.
  - by intros ->.
  - intros text -> Hparse. rewrite Hparse. by destruct (truthy_string text).
Qed.

Lemma load_never_throws_witness :
  DataProvider_load (fun _ => Thrown) ∅ = Returned empty_store_json
  /\
  DataProvider_load (fun _ => Thrown) {[ STORE_KEY := "{oops"%string ]}
  = Returned empty_store_json.
Proof.
  split.
  - apply (proj1 (proj2 (load_never_throws (fun _ => Thrown) ∅))).
    apply lookup_empty.
  - apply (proj2 (proj2 (load_never_throws (fun _ => Thrown)
                           {[ STORE_KEY := "{oops"%string ]})) "{oops"%string).
    + apply lookup_singleton_eq.
    + reflexivity.
Defined.

(** An empty text is not even handed to the parser. *)
Lemma load_empty_text parse (localStorage : gmap string string) key state :
  localStorage !! key = Some EmptyString ->
  load parse localStorage key state = Returned state.
Proof. intros H. unfold load, getItem. by rewrite H. Qed.

(** A text that parses becomes the state, whatever its shape. *)
Lemma load_parsed parse (localStorage : gmap string string) key state c text data :
  localStorage !! key = Some (String c text) ->
  parse (String c text) = Returned data ->
  load parse localStorage key state = Returned data.
Proof. intros H Hp. unfold load, getItem. rewrite H. simpl. by rewrite Hp. Qed.

(** ** CSV field encoding *)

Lemma chars_inj (s1 s2 : string) : chars s1 = chars s2 -> s1 = s2.
Proof.
  intros H. rewrite <-(String.string_of_list_ascii_of_string s1),
    <-(String.string_of_list_ascii_of_string s2). by rewrite H.
Qed.

Lemma chars_append (s1 s2 : string) : chars (s1 +:+ s2) = chars s1 ++ chars s2.
Proof. induction s1 as [|c s1 IH]; [done|]. simpl. by rewrite IH. Qed.

Lemma chars_replaceAll (pattern : ascii) (replacement s : string) :
  chars (replaceAll pattern replacement s)
  = chars s ≫= fun c => if decide (c = pattern) then chars replacement else [c].
Proof.
  induction s as [|c s IH]; [done|]. cbn [replaceAll String.list_ascii_of_string].
  rewrite bind_cons. destruct (decide (c = pattern)).
  - by rewrite chars_append, IH.
  - simpl. by rewrite IH.
Qed.

Lemma regex_test_class_true (class : list ascii) (s : string) :
  regex_test_class class s = true <->
  exists c, c ∈ class /\ contains_char c s.
Proof.
  unfold contains_char. induction s as [|c s IH]; simpl.
  - split; [done|]. intros (c & _ & Hc). by apply elem_of_nil in Hc.
  - rewrite orb_true_iff, bool_decide_eq_true, IH. split.
    + intros [Hc | (c' & Hcls & Hc')].
      * exists c. split; [done|]. apply elem_of_cons. by left.
      * exists c'. split; [done|]. apply elem_of_cons. by right.
    + intros (c' & Hcls & Hc'). apply elem_of_cons in Hc' as [->|Hc'].
      * by left.
      * right. by exists c'.
Qed.

Lemma length_quoted_chars (l : list ascii) : length l < length (quoted_chars l).
Proof.
  unfold quoted_chars. cbn [length]. rewrite length_app. cbn [length].
  induction l as [|c l IH]; [simpl; lia|].
  rewrite bind_cons, length_app. cbn [length].
  destruct (decide (c = dquote)); cbn [length]; lia.
Qed.

(** The encoder on characters: a field with one of the three characters
    is quoted, any other field is left alone. *)
Lemma csv_field_chars (field : string) :
  chars (csv_field field)
  = if regex_test_class [dquote; comma; newline] field
    then quoted_chars (chars field) else chars field.
Proof.
  unfold csv_field, quoted_chars.
  destruct (regex_test_class _ field); [|done].
  cbn [String.list_ascii_of_string]. by rewrite chars_append, chars_replaceAll.
Qed.

Lemma needs_quoting_iff (field : string) :
  regex_test_class [dquote; comma; newline] field = true <->
  ~ (~ contains_char comma field /\ ~ contains_char dquote field /\
     ~ contains_char newline field).
Proof.
  rewrite regex_test_class_true. split.
  - intros (c & Hcls & Hc) (Hcomma & Hquote & Hnl).
    repeat (apply elem_of_cons in Hcls as [->|Hcls]); try done.
    by apply elem_of_nil in Hcls.
  - intros Hnot.
    destruct (decide (contains_char comma field)) as [H|Hcomma].
    { exists comma. split; [|done]. apply elem_of_cons. right. apply elem_of_cons. by left. }
    destruct (decide (contains_char dquote field)) as [H|Hquote].
    { exists dquote. split; [|done]. apply elem_of_cons. by left. }
    destruct (decide (contains_char newline field)) as [H|Hnl].
    { exists newline. split; [|done]. do 2 (apply elem_of_cons; right).
      apply elem_of_cons. by left. }
    by destruct Hnot.
Qed.

(** C4. The encoder leaves a field as it is exactly when the field has no
    comma, no double quote and no line feed; any other field comes out with
    each double quote doubled and the whole wrapped in double quotes.  The
    example field [jane_field] comes out as [jane_encoded]. *)
Theorem csv_field_quoting (field : string) :
  (csv_field field = field <->
   ~ contains_char comma field /\ ~ contains_char dquote field /\
   ~ contains_char newline field)
  /\
  (~ (~ contains_char comma field /\ ~ contains_char dquote field /\
      ~ contains_char newline field) ->
   chars (csv_field field) = quoted_chars (chars field))
  /\
  csv_field jane_field = jane_encoded.
Proof.
  pose proof (csv_field_chars field) as Hchars.
  pose proof (needs_quoting_iff field) as Hneeds.
  destruct (regex_test_class [dquote; comma; newline] field) eqn:Htest.
  - split_and!.
    + split.
      * intros Heq. rewrite Heq in Hchars.
        pose proof (length_quoted_chars (chars field)) as Hlen.
        rewrite <-Hchars in Hlen. lia.
      * intros Hclean. by apply Hneeds in Hclean.
    + done.
    + reflexivity.
  - split_and!.
    + split.
      * intros _. destruct (decide (contains_char comma field));
          destruct (decide (contains_char dquote field));
          destruct (decide (contains_char newline field));
          try (split_and!; done);
          assert (false = true) by (apply Hneeds; tauto); done.
      * intros _. by apply chars_inj.
    + intros Hdirty. apply Hneeds in Hdirty. done.
    + reflexivity.
Qed.

Lemma csv_field_quoting_witness :
  chars (csv_field jane_field) = quoted_chars (chars jane_field).
Proof.
  apply (proj1 (proj2 (csv_field_quoting jane_field))).
  intros (Hcomma & _). apply Hcomma.
  apply (bool_decide_unpack _). vm_compute. exact I.
Defined.

(** ** CSV export *)

(** The [for] loop that pushes one row per member. *)
Lemma push_loop {A B} (f : A -> B) (l : list A) (init : list B) :
  foldl (fun rows m => rows ++ [f m]) init l = init ++ (f <$> l).
Proof.
  revert init. induction l as [|x l IH]; intros init; simpl.
  - by rewrite app_nil_r.
  - rewrite IH. by rewrite <-app_assoc.
Qed.

(** The [Map] built by the scan answers with the flag of the last record
    of the key: a later [set] overwrites an earlier one. *)
Lemma attendanceMap_lookup (s : StoreShape) (sid mid : Uuid) :
  attendanceMap s sid !! mid = last_flag sid mid (attendance s).
Proof.
  unfold attendanceMap, last_flag.
  induction (attendance s) as [|a l IH] using rev_ind; [done|].
  rewrite foldl_snoc, filter_app.
  destruct (decide (sessionId a = sid)) as [Hsid|Hsid].
  - destruct (decide (memberId a = mid)) as [Hmid|Hmid].
    + rewrite filter_cons_True by done. rewrite filter_nil, last_snoc.
      subst mid. by rewrite lookup_insert_eq.
    + rewrite filter_cons_False by (by intros [_ ?]).
      rewrite filter_nil, app_nil_r. by rewrite lookup_insert_ne.
  - rewrite filter_cons_False by (by intros [? _]).
    by rewrite filter_nil, app_nil_r.
Qed.

Lemma last_flag_marked (sid mid : Uuid) (l : list AttendanceRecord) :
  last_flag sid mid l = Some true -> marked_present sid mid l.
Proof.
  unfold last_flag. intros (a & Hlast & Hp)%fmap_Some.
  apply last_Some_elem_of, list_elem_of_filter in Hlast as [Hkey Hin].
  by exists a.
Qed.

Lemma marked_last_flag (sid mid : Uuid) (l : list AttendanceRecord) :
  unique_keys l -> marked_present sid mid l -> last_flag sid mid l = Some true.
Proof.
  intros Huniq (a & Hin & Hkey & Hp). unfold last_flag.
  pose proof (key_count_unique sid mid l a Huniq Hin Hkey) as Hcount.
  unfold key_count in Hcount.
  assert (a ∈ filter (same_key sid mid) l) as Hfilter
    by (by apply list_elem_of_filter).
  destruct (filter (same_key sid mid) l) as [|x [|y rest]]; try done.
  apply list_elem_of_singleton in Hfilter. subst x. simpl. by rewrite Hp.
Qed.

Lemma yes_no_last_flag (v : option bool) :
  yes_no v = if bool_decide (v = Some true) then "Yes"%string else "No"%string.
Proof. by destruct v as [[]|]. Qed.

(** The export in terms of the last record of each key. *)
Lemma exportCsvForSession_last_wins (s : StoreShape) (sid : Uuid) (sel : Session) :
  find (fun sess => session_id sess = sid) (sessions s) = Some sel ->
  exportCsvForSession s sid
  = Some (csv_file_name sel, csv_text (last_wins_rows s sel), "text/csv"%string).
Proof.
  intros Hsel. unfold exportCsvForSession. rewrite Hsel.
  apply find_Some in Hsel as (i & _ & Hid & _).
  rewrite push_loop. cbn [app]. unfold csv_file_name, csv_text, last_wins_rows.
  assert (csv_row (attendanceMap s sid) sel <$> members s
          = (fun m => member_row sel m
               (bool_decide (last_flag (session_id sel) (member_id m)
                               (attendance s) = Some true))) <$> members s)
    as ->; [|done].
  apply list_fmap_ext. intros _ m _. unfold csv_row, member_row.
  by rewrite attendanceMap_lookup, yes_no_last_flag, Hid.
Qed.

Lemma claimed_rows_unique (s : StoreShape) (sel : Session) :
  unique_keys (attendance s) -> claimed_rows s sel = last_wins_rows s sel.
Proof.
  intros Huniq. unfold claimed_rows, last_wins_rows. f_equal.
  apply list_fmap_ext. intros _ m _. f_equal. apply bool_decide_ext. split.
  - by apply marked_last_flag.
  - apply last_flag_marked.
Qed.

(** C7, as stated, fails on a store in which a key has two records: the
    later record decides, so a member with an earlier [present: true] and a
    later [present: false] is exported as [No]. *)
Lemma exportCsv_duplicate_key_counterexample :
  find (fun sess => session_id sess = "s1"%string) (sessions duplicate_key_store)
  = Some (mkSession "s1" "Week 1" "2025-01-01" None)
  /\
  marked_present "s1" "m1" (attendance duplicate_key_store)
  /\
  exportCsvForSession duplicate_key_store "s1"
  <> Some (csv_file_name (mkSession "s1" "Week 1" "2025-01-01" None),
           csv_text (claimed_rows duplicate_key_store
                       (mkSession "s1" "Week 1" "2025-01-01" None)),
           "text/csv"%string).
Proof.
  split; [reflexivity|]. split.
  - exists (mkAttendance "s1" "m1" true). split; [|done]. apply elem_of_cons. by left.
  - vm_compute. discriminate.
Qed.

(** C7, amended.  For the selected session (the first session of the store
    with the selected id) the export is the header row followed by one row
    per member, in the order of the members list, with columns name, email
    or the empty string, phone or the empty string, [Yes] when the last
    attendance record for the session and the member has [present] true and
    [No] otherwise, the session title and the session date.  On a store
    with at most one attendance record per key this is [Yes] exactly when a
    record for the session and the member exists with [present] true. *)
Theorem exportCsvForSession_rows (s : StoreShape) (sid : Uuid) (sel : Session) :
  find (fun sess => session_id sess = sid) (sessions s) = Some sel ->
  exportCsvForSession s sid
  = Some (csv_file_name sel, csv_text (last_wins_rows s sel), "text/csv"%string)
  /\
  length (last_wins_rows s sel) = S (length (members s))
  /\
  (unique_keys (attendance s) ->
   exportCsvForSession s sid
   = Some (csv_file_name sel, csv_text (claimed_rows s sel), "text/csv"%string)).
Proof.
  intros Hsel. split; [by apply exportCsvForSession_last_wins|]. split.
  - unfold last_wins_rows. cbn [length]. by rewrite length_fmap.
  - intros Huniq. rewrite claimed_rows_unique by done.
    by apply exportCsvForSession_last_wins.
Qed.

Lemma exportCsvForSession_rows_witness :
  exportCsvForSession scenario_store "s1"
  = Some (csv_file_name (mkSession "s1" "Week 1" "2025-01-01" None),
          csv_text (claimed_rows scenario_store
                      (mkSession "s1" "Week 1" "2025-01-01" None)),
          "text/csv"%string).
Proof.
  apply (proj2 (proj2 (exportCsvForSession_rows scenario_store "s1"
                         (mkSession "s1" "Week 1" "2025-01-01" None) eq_refl))).
  unfold unique_keys. vm_compute. apply NoDup_singleton.
Defined.

(** The scenario of the specification: the export is the header row and
    the row [Ann,,,Yes,Week 1,2025-01-01]. *)
Example exportCsv_scenario :
  exportCsvForSession scenario_store "s1"
  = Some ("2025-01-01-Week 1-attendance.csv"%string,
          "Member Name,Email,Phone,Present,Session Title,Date"
            +:+ String newline "Ann,,,Yes,Week 1,2025-01-01",
          "text/csv"%string).
Proof. reflexivity. Qed.

Example removeSession_scenario :
  removeSession "s1" scenario_store
  = {| members := [mkMember "m1" "Ann" None None]; sessions := [];
       attendance := [] |}.
Proof. reflexivity. Qed.

(** * Further properties of the mutation API *)

(** ** The attendance list around the record [setAttendance] rewrites *)

Lemma findIndex_split {A} (P : A -> Prop) `{!forall x, Decision (P x)}
    (l : list A) (i : nat) :
  findIndex P l = Some i ->
  exists l1 a l2, l = l1 ++ a :: l2 /\ length l1 = i /\
                  Forall (fun x => ~ P x) l1 /\ P a.
Proof.
  intros (a & Ha & HP & Hfirst)%findIndex_Some.
  exists (take i l), a, (drop (S i) l).
  pose proof (lookup_lt_Some _ _ _ Ha) as Hlt.
  split; [by rewrite take_drop_middle|].
  split; [rewrite length_take; lia|]. split; [|done].
  apply Forall_lookup. intros j y Hj.
  pose proof (lookup_lt_Some _ _ _ Hj) as Hjlt. rewrite length_take in Hjlt.
  rewrite lookup_take_lt in Hj by lia. apply (Hfirst j y Hj). lia.
Qed.

Lemma setAttendance_found_split sid mid p s i :
  findIndex (same_key sid mid) (attendance s) = Some i ->
  exists l1 a l2,
    attendance s = l1 ++ a :: l2 /\
    Forall (fun x => ~ same_key sid mid x) l1 /\ same_key sid mid a /\
    attendance (setAttendance sid mid p s) = l1 ++ with_present p a :: l2.
Proof.
  intros Hi. rewrite (setAttendance_found _ _ p _ _ Hi).
  apply findIndex_split in Hi as (l1 & a & l2 & Hl & Hlen & Hl1 & Ha).
  exists l1, a, l2. split; [done|]. split; [done|]. split; [done|].
  rewrite Hl, alter_app_r_alt by lia.
  by replace (i - length l1) with 0 by lia.
Qed.

Lemma filter_absent {A} (P : A -> Prop) `{!forall x, Decision (P x)} (l : list A) :
  Forall (fun x => ~ P x) l -> filter P l = [].
Proof.
  intros Hall. induction l as [|x l IH]; [done|].
  apply Forall_cons in Hall as [Hx Hl].
  rewrite filter_cons_False; [by apply IH|done].
Qed.

Lemma record_key_with_present p a : record_key (with_present p a) = record_key a.
Proof. done. Qed.

(** X1. [setAttendance] keeps the composite key unique: on a store with at
    most one attendance record per key, the store it returns has at most one
    record per key. *)
Theorem setAttendance_preserves_unique_keys (s : StoreShape) (sid mid : Uuid)
    (p : bool) :
  unique_keys (attendance s) ->
  unique_keys (attendance (setAttendance sid mid p s)).
Proof.
  unfold unique_keys. intros Huniq.
  destruct (findIndex (same_key sid mid) (attendance s)) as [i|] eqn:Hi.
  - destruct (setAttendance_found_split _ _ p _ _ Hi)
      as (l1 & a & l2 & Hl & _ & _ & ->).
    rewrite Hl in Huniq. by rewrite fmap_app, fmap_cons in *.
  - rewrite (setAttendance_fresh _ _ p _ Hi), fmap_app.
    apply NoDup_app. split; [done|]. split; [|apply NoDup_singleton].
    intros k Hk Hk'. apply list_elem_of_singleton in Hk'. subst k.
    apply list_elem_of_fmap in Hk as (a & Ha & Hin).
    apply findIndex_None in Hi. rewrite Forall_forall in Hi.
    apply (Hi a Hin). by apply same_key_record_key.
Qed.

Lemma setAttendance_preserves_unique_keys_witness :
  unique_keys (attendance (setAttendance "s1" "m1" true
     (mkStore [] [] [mkAttendance "s1" "m0" true; mkAttendance "s1" "m1" false]))).
Proof.
  apply setAttendance_preserves_unique_keys.
  unfold unique_keys. apply (bool_decide_unpack _). vm_compute. exact I.
Defined.

(** X2. The last write wins: [setAttendance] of a key after a
    [setAttendance] of the same key gives the store the second call alone
    gives, on every store. *)
Theorem setAttendance_last_write_wins (s : StoreShape) (sid mid : Uuid)
    (p1 p2 : bool) :
  setAttendance sid mid p2 (setAttendance sid mid p1 s)
  = setAttendance sid mid p2 s.
Proof.
  destruct (findIndex (same_key sid mid) (attendance s)) as [i|] eqn:Hi.
  - unfold setAttendance at 1. cbn [members sessions].
    rewrite (setAttendance_found _ _ p1 _ _ Hi).
    rewrite findIndex_alter by apply with_present_same_key. rewrite Hi.
    rewrite list_alter_alter_eq. unfold setAttendance. rewrite Hi. reflexivity.
  - unfold setAttendance at 1. cbn [members sessions].
    rewrite (setAttendance_fresh _ _ p1 _ Hi).
    rewrite (findIndex_snoc_fresh _ _ _ Hi) by done.
    unfold setAttendance. rewrite Hi. f_equal.
    rewrite alter_app_r_alt by done. by rewrite Nat.sub_diag.
Qed.

(** The records of a key before and after [setAttendance] of another key. *)
Lemma setAttendance_filter_other (s : StoreShape) (sid mid sid' mid' : Uuid)
    (p : bool) :
  (sid', mid') <> (sid, mid) ->
  filter (same_key sid' mid') (attendance (setAttendance sid mid p s))
  = filter (same_key sid' mid') (attendance s).
Proof.
  intros Hne.
  assert (forall a, same_key sid mid a -> ~ same_key sid' mid' a) as Hother.
  { intros a [<- <-] [Hs Hm]. apply Hne. by rewrite Hs, Hm. }
  destruct (findIndex (same_key sid mid) (attendance s)) as [i|] eqn:Hi.
  - destruct (setAttendance_found_split _ _ p _ _ Hi)
      as (l1 & a & l2 & -> & _ & Ha & ->).
    rewrite !filter_app, !filter_cons.
    rewrite (decide_False (P := same_key sid' mid' (with_present p a)))
      by (apply Hother; by apply with_present_same_key).
    by rewrite (decide_False (P := same_key sid' mid' a)) by by apply Hother.
  - rewrite (setAttendance_fresh _ _ p _ Hi), filter_app.
    rewrite filter_cons_False by by apply Hother.
    by rewrite filter_nil, app_nil_r.
Qed.

Lemma attendanceMap_after_write (s : StoreShape) (sid mid : Uuid) (p : bool) :
  unique_keys (attendance s) ->
  attendanceMap (setAttendance sid mid p s) sid !! mid = Some p.
Proof.
  intros Huniq. rewrite attendanceMap_lookup. unfold last_flag.
  destruct (findIndex (same_key sid mid) (attendance s)) as [i|] eqn:Hi.
  - destruct (setAttendance_found_split _ _ p _ _ Hi)
      as (l1 & a & l2 & Hl & Hl1 & Ha & ->).
    assert (a ∈ attendance s) as Hin
      by (rewrite Hl; apply elem_of_app; right; apply elem_of_cons; by left).
    pose proof (key_count_unique sid mid _ a Huniq Hin Ha) as Hcount.
    unfold key_count in Hcount. rewrite Hl in Hcount.
    rewrite filter_app, filter_cons_True, length_app in Hcount by done.
    cbn [length] in Hcount.
    assert (filter (same_key sid mid) l2 = []) as Hl2
      by (apply length_zero_iff_nil; lia).
    rewrite filter_app, (filter_absent _ l1 Hl1).
    rewrite filter_cons_True by by apply with_present_same_key.
    by rewrite Hl2.
  - rewrite (setAttendance_fresh _ _ p _ Hi), filter_app.
    rewrite filter_cons_True by done. by rewrite filter_nil, last_snoc.
Qed.

Lemma unique_keys_after_write (s : StoreShape) (sid mid : Uuid) (p : bool) :
  unique_keys (attendance s) ->
  unique_keys (attendance (setAttendance sid mid p s)).
Proof.
  unfold unique_keys. intros Huniq.
  destruct (findIndex (same_key sid mid) (attendance s)) as [i|] eqn:Hi.
  - destruct (setAttendance_found_split _ _ p _ _ Hi)
      as (l1 & a & l2 & Hl & _ & _ & ->).
    rewrite Hl in Huniq. by rewrite fmap_app, fmap_cons in *.
  - rewrite (setAttendance_fresh _ _ p _ Hi), fmap_app.
    apply findIndex_None in Hi. apply NoDup_app. split; [done|]. split.
    + intros k Hk Hk'. apply list_elem_of_singleton in Hk'. subst k.
      apply list_elem_of_fmap in Hk as (a & Ha & Hin).
      rewrite Forall_forall in Hi. apply (Hi a Hin).
      by apply same_key_record_key.
    + apply NoDup_singleton.
Qed.

(** X3. Read after write.  On a store with at most one record per key, the
    map of a session built after [setAttendance sid mid p] answers [p] for
    the member; and on every store the answers for all other pairs of
    session and member are the ones given before. *)
Theorem setAttendance_then_attendanceMap (s : StoreShape) (sid mid : Uuid)
    (p : bool) :
  (unique_keys (attendance s) ->
   attendanceMap (setAttendance sid mid p s) sid !! mid = Some p)
  /\
  (forall sid' mid', (sid', mid') <> (sid, mid) ->
   attendanceMap (setAttendance sid mid p s) sid' !! mid'
   = attendanceMap s sid' !! mid').
Proof.
  split; [apply attendanceMap_after_write|].
  intros sid' mid' Hne. rewrite !attendanceMap_lookup. unfold last_flag.
  by rewrite setAttendance_filter_other.
Qed.

Lemma setAttendance_then_attendanceMap_witness :
  attendanceMap (setAttendance "s1" "m1" true
     (mkStore [] [] [mkAttendance "s1" "m1" false])) "s1" !! "m1" = Some true
  /\
  attendanceMap (setAttendance "s1" "m1" true
     (mkStore [] [] [mkAttendance "s1" "m1" false])) "s1" !! "m2"
  = attendanceMap (mkStore [] [] [mkAttendance "s1" "m1" false]) "s1" !! "m2".
Proof.
  split.
  - apply (proj1 (setAttendance_then_attendanceMap
                    (mkStore [] [] [mkAttendance "s1" "m1" false]) "s1" "m1" true)).
    unfold unique_keys. simpl. apply NoDup_singleton.
  - apply (proj2 (setAttendance_then_attendanceMap
                    (mkStore [] [] [mkAttendance "s1" "m1" false]) "s1" "m1" true)).
    discriminate.
Defined.

(** X4. When a key has two records or more, [setAttendance] rewrites the
    first of them while the map of the session reads the last: the flag the
    attendance tab shows for the member does not change. *)
Theorem setAttendance_duplicate_key_unseen (s : StoreShape) (sid mid : Uuid)
    (p : bool) :
  2 <= key_count sid mid (attendance s) ->
  attendanceMap (setAttendance sid mid p s) sid !! mid
  = attendanceMap s sid !! mid.
Proof.
  intros Hcount. rewrite !attendanceMap_lookup. unfold last_flag.
  destruct (findIndex (same_key sid mid) (attendance s)) as [i|] eqn:Hi.
  - destruct (setAttendance_found_split _ _ p _ _ Hi)
      as (l1 & a & l2 & Hl & Hl1 & Ha & ->).
    unfold key_count in Hcount. rewrite Hl in *.
    rewrite !filter_app, (filter_absent _ l1 Hl1) in *.
    rewrite filter_cons_True in Hcount by done.
    rewrite filter_cons_True by by apply with_present_same_key.
    rewrite (filter_cons_True _ a) by done.
    cbn [app length] in *.
    destruct (filter (same_key sid mid) l2) as [|b rest]; [simpl in Hcount; lia|].
    by rewrite !last_cons_cons.
  - apply findIndex_None in Hi.
    rewrite (key_count_absent _ _ _ Hi) in Hcount. lia.
Qed.

Lemma setAttendance_duplicate_key_unseen_witness :
  attendanceMap (setAttendance "s1" "m1" true duplicate_key_store) "s1" !! "m1"
  = attendanceMap duplicate_key_store "s1" !! "m1".
Proof.
  apply setAttendance_duplicate_key_unseen. vm_compute. lia.
Defined.

(** ** The toggle of the attendance tab *)

Lemma selected_session_id (s : StoreShape) (sid : Uuid) (sel : Session) :
  selected_session s sid = Some sel -> session_id sel = sid.
Proof. by intros (i & _ & Hid & _)%find_Some. Qed.

(** X5. On a store with at most one record per key, a click on the toggle
    of a member flips the flag the tab shows for that member, and a second
    click shows the first flag again. *)
Theorem toggle_onClick_flips (s : StoreShape) (sid : Uuid) (sel : Session)
    (m : Member) :
  selected_session s sid = Some sel ->
  unique_keys (attendance s) ->
  shown_present (attendanceMap (toggle_onClick s sid sel m) sid) (member_id m)
  = negb (shown_present (attendanceMap s sid) (member_id m))
  /\
  shown_present
    (attendanceMap (toggle_onClick (toggle_onClick s sid sel m) sid sel m) sid)
    (member_id m)
  = shown_present (attendanceMap s sid) (member_id m).
Proof.
  intros Hsel Huniq. apply selected_session_id in Hsel. subst sid.
  assert (forall s0, unique_keys (attendance s0) ->
    shown_present (attendanceMap (toggle_onClick s0 (session_id sel) sel m)
                     (session_id sel)) (member_id m)
    = negb (shown_present (attendanceMap s0 (session_id sel)) (member_id m)))
    as Hflip.
  { intros s0 H0. unfold toggle_onClick.
    unfold shown_present at 1. rewrite attendanceMap_after_write by done.
    by destruct (negb _). }
  split; [by apply Hflip|].
  rewrite Hflip by (by apply unique_keys_after_write).
  rewrite Hflip by done. apply negb_involutive.
Qed.

Lemma toggle_onClick_flips_witness :
  shown_present
    (attendanceMap (toggle_onClick scenario_store "s1"
                      (mkSession "s1" "Week 1" "2025-01-01" None)
                      (mkMember "m1" "Ann" None None)) "s1") "m1"
  = negb (shown_present (attendanceMap scenario_store "s1") "m1").
Proof.
  apply (proj1 (toggle_onClick_flips scenario_store "s1"
                  (mkSession "s1" "Week 1" "2025-01-01" None)
                  (mkMember "m1" "Ann" None None) eq_refl
                  (NoDup_singleton _))).
Defined.

(** ** Removal *)

Lemma filter_all {A} (P : A -> Prop) `{!forall x, Decision (P x)} (l : list A) :
  Forall P l -> filter P l = l.
Proof.
  intros Hall. induction l as [|x l IH]; [done|].
  apply Forall_cons in Hall as [Hx Hl].
  rewrite filter_cons_True by done. f_equal. by apply IH.
Qed.

Lemma filter_idemp {A} (P : A -> Prop) `{!forall x, Decision (P x)} (l : list A) :
  filter P (filter P l) = filter P l.
Proof.
  apply filter_all, Forall_forall. intros x Hx.
  by apply list_elem_of_filter in Hx as [Hx _].
Qed.

Lemma filter_comm {A} (P Q : A -> Prop) `{!forall x, Decision (P x)}
    `{!forall x, Decision (Q x)} (l : list A) :
  filter P (filter Q l) = filter Q (filter P l).
Proof. rewrite !list_filter_filter. apply list_filter_iff. tauto. Qed.

Lemma NoDup_fmap_filter {A B} (f : A -> B) (P : A -> Prop)
    `{!forall x, Decision (P x)} (l : list A) :
  NoDup (f <$> l) -> NoDup (f <$> filter P l).
Proof.
  intros Hnd. apply (sublist_NoDup _ (f <$> l)); [done|].
  apply fmap_sublist, sublist_filter.
Qed.

(** X6. Removing twice is removing once, and the removal of a member and
    the removal of a session can be done in either order. *)
Theorem remove_idempotent_commute (s : StoreShape) (mid sid : Uuid) :
  removeMember mid (removeMember mid s) = removeMember mid s /\
  removeSession sid (removeSession sid s) = removeSession sid s /\
  removeMember mid (removeSession sid s) = removeSession sid (removeMember mid s).
Proof.
  unfold removeMember, removeSession. cbn [members sessions attendance].
  split; [|split].
  - by rewrite !filter_idemp.
  - by rewrite !filter_idemp.
  - f_equal. apply filter_comm.
Qed.

(** X7. Both removals keep the attendance keys unique and keep the ids of
    the members, and of the sessions, free of duplicates. *)
Theorem remove_preserves_uniqueness (s : StoreShape) (id : Uuid) :
  (unique_keys (attendance s) ->
   unique_keys (attendance (removeMember id s)) /\
   unique_keys (attendance (removeSession id s)))
  /\
  (NoDup (member_id <$> members s) ->
   NoDup (member_id <$> members (removeMember id s)) /\
   NoDup (member_id <$> members (removeSession id s)))
  /\
  (NoDup (session_id <$> sessions s) ->
   NoDup (session_id <$> sessions (removeMember id s)) /\
   NoDup (session_id <$> sessions (removeSession id s))).
Proof.
  unfold unique_keys, removeMember, removeSession.
  cbn [members sessions attendance].
  split; [|split]; intros Hnd; split; try done; by apply NoDup_fmap_filter.
Qed.

Lemma remove_preserves_uniqueness_witness :
  unique_keys (attendance (removeMember "m1" scenario_store)) /\
  unique_keys (attendance (removeSession "m1" scenario_store)).
Proof.
  apply (proj1 (remove_preserves_uniqueness scenario_store "m1")).
  apply NoDup_singleton.
Defined.

(** X8. After [removeMember id] the map of every session has no entry for
    [id], and answers for every other member what it answered before;
    after [removeSession id] the map of that session is empty at every
    member. *)
Theorem remove_then_attendanceMap (s : StoreShape) (id : Uuid) :
  (forall sid, attendanceMap (removeMember id s) sid !! id = None)
  /\
  (forall sid mid, mid <> id ->
     attendanceMap (removeMember id s) sid !! mid = attendanceMap s sid !! mid)
  /\
  (forall mid, attendanceMap (removeSession id s) id !! mid = None).
Proof.
  split; [|split]; intros; rewrite ?attendanceMap_lookup; unfold last_flag;
    unfold removeMember, removeSession; cbn [attendance].
  - rewrite filter_absent; [done|]. apply Forall_forall. intros a Ha [_ Hm].
    by apply list_elem_of_filter in Ha as [Ha _].
  - rewrite list_filter_filter.
    rewrite (list_filter_iff _ (same_key sid mid)); [done|].
    intros a. unfold same_key. split; [tauto|]. intros [Hs Hm].
    split; [done|]. congruence.
  - rewrite filter_absent; [done|]. apply Forall_forall. intros a Ha [Hs _].
    by apply list_elem_of_filter in Ha as [Ha _].
Qed.

Lemma remove_then_attendanceMap_witness :
  attendanceMap (removeMember "m9" scenario_store) "s1" !! "m1"
  = attendanceMap scenario_store "s1" !! "m1".
Proof.
  apply (proj1 (proj2 (remove_then_attendanceMap scenario_store "m9"))).
  discriminate.
Defined.

(** ** Referential integrity *)

Lemma elem_of_ids_filter {A} (f : A -> Uuid) (l : list A) (id k : Uuid) :
  k ∈ (f <$> l) -> k <> id -> k ∈ (f <$> filter (fun x => f x <> id) l).
Proof.
  intros (x & -> & Hx)%list_elem_of_fmap Hne.
  apply list_elem_of_fmap_2. by apply list_elem_of_filter.
Qed.

(** X9. A store in which every attendance record refers to a member and
    to a session of the store stays so under [addMember], [addSession],
    [removeMember], [removeSession], and under [setAttendance] for a
    session and a member of the store. *)
Theorem referential_integrity_preserved (s : StoreShape) :
  referential_integrity s ->
  (forall fresh input, referential_integrity (addMember fresh input s)) /\
  (forall fresh input, referential_integrity (addSession fresh input s)) /\
  (forall id, referential_integrity (removeMember id s)) /\
  (forall id, referential_integrity (removeSession id s)) /\
  (forall sid mid p,
     sid ∈ (session_id <$> sessions s) -> mid ∈ (member_id <$> members s) ->
     referential_integrity (setAttendance sid mid p s)).
Proof.
  unfold referential_integrity. intros Hri. rewrite Forall_forall in Hri.
  split_and!.
  - intros fresh input. apply Forall_forall. intros a Ha.
    destruct (Hri a Ha) as [Hm Hs]. split; [|done].
    cbn [addMember members]. rewrite fmap_app. apply elem_of_app. by left.
  - intros fresh input. apply Forall_forall. intros a Ha.
    destruct (Hri a Ha) as [Hm Hs]. split; [done|].
    cbn [addSession sessions]. rewrite fmap_app. apply elem_of_app. by left.
  - intros id. apply Forall_forall. intros a Ha.
    apply removeMember_keeps in Ha as [Hne Ha].
    destruct (Hri a Ha) as [Hm Hs]. split; [|done].
    by apply (elem_of_ids_filter member_id).
  - intros id. apply Forall_forall. intros a Ha.
    apply removeSession_keeps in Ha as [Hne Ha].
    destruct (Hri a Ha) as [Hm Hs]. split; [done|].
    by apply (elem_of_ids_filter session_id).
  - intros sid mid p Hsid Hmid. apply Forall_forall. intros a Ha.
    cbn [setAttendance members sessions].
    destruct (findIndex (same_key sid mid) (attendance s)) as [i|] eqn:Hi.
    + destruct (setAttendance_found_split _ _ p _ _ Hi)
        as (l1 & b & l2 & Hl & _ & _ & Hl').
      rewrite Hl' in Ha. rewrite Hl in Hri.
      apply elem_of_app in Ha as [Ha|Ha].
      * apply Hri, elem_of_app. by left.
      * apply elem_of_cons in Ha as [->|Ha].
        -- apply (Hri b), elem_of_app. right. apply elem_of_cons. by left.
        -- apply Hri, elem_of_app. right. apply elem_of_cons. by right.
    + rewrite (setAttendance_fresh _ _ p _ Hi) in Ha.
      apply elem_of_app in Ha as [Ha|Ha]; [by apply Hri|].
      apply list_elem_of_singleton in Ha. by subst a.
Qed.

Lemma referential_integrity_preserved_witness :
  referential_integrity (removeMember "m1" scenario_store).
Proof.
  apply (referential_integrity_preserved scenario_store).
  apply Forall_cons. split; [|apply Forall_nil_2].
  split; apply list_elem_of_singleton; reflexivity.
Defined.

(** ** Adding *)

(** X10. [addMember] appends: the members before stay in place and the ids
    become the old ids followed by the generated one.  When the generated id
    is not an id of the store and no attendance record refers to it, the ids
    stay free of duplicates and [removeMember] of that id gives back the
    store as it was.  The same holds for [addSession] and [removeSession]. *)
Theorem add_then_remove (s : StoreShape) (fresh : Uuid)
    (minput : MemberInput) (sinput : SessionInput) :
  (member_id <$> members (addMember fresh minput s)
   = (member_id <$> members s) ++ [fresh] /\
   session_id <$> sessions (addSession fresh sinput s)
   = (session_id <$> sessions s) ++ [fresh])
  /\
  (fresh ∉ (member_id <$> members s) ->
   (NoDup (member_id <$> members s) ->
    NoDup (member_id <$> members (addMember fresh minput s))) /\
   (Forall (fun a => memberId a <> fresh) (attendance s) ->
    removeMember fresh (addMember fresh minput s) = s))
  /\
  (fresh ∉ (session_id <$> sessions s) ->
   (NoDup (session_id <$> sessions s) ->
    NoDup (session_id <$> sessions (addSession fresh sinput s))) /\
   (Forall (fun a => sessionId a <> fresh) (attendance s) ->
    removeSession fresh (addSession fresh sinput s) = s)).
Proof.
  assert (forall {A} (f : A -> Uuid) (l : list A) (x : A),
    f x ∉ (f <$> l) ->
    filter (fun y => f y <> f x) (l ++ [x]) = l) as Hfilter.
  { intros A f l x Hx. rewrite filter_app.
    rewrite filter_cons_False by (intros Hne; by apply Hne).
    rewrite filter_nil, app_nil_r. apply filter_all, Forall_forall.
    intros y Hy Heq. apply Hx. rewrite <-Heq. by apply list_elem_of_fmap_2. }
  split; [|split].
  - cbn [addMember addSession members sessions]. by rewrite !fmap_app.
  - intros Hfresh. split.
    + intros Hnd. cbn [addMember members]. rewrite fmap_app.
      apply NoDup_app. split; [done|]. split; [|apply NoDup_singleton].
      intros k Hk Hk'. apply list_elem_of_singleton in Hk'. by subst k.
    + intros Hatt. destruct s as [ms ss att].
      unfold removeMember, addMember. cbn [members sessions attendance] in *.
      f_equal; [|by apply filter_all].
      by apply (Hfilter _ member_id ms (mkMember fresh _ _ _)).
  - intros Hfresh. split.
    + intros Hnd. cbn [addSession sessions]. rewrite fmap_app.
      apply NoDup_app. split; [done|]. split; [|apply NoDup_singleton].
      intros k Hk Hk'. apply list_elem_of_singleton in Hk'. by subst k.
    + intros Hatt. destruct s as [ms ss att].
      unfold removeSession, addSession. cbn [members sessions attendance] in *.
      f_equal; [|by apply filter_all].
      by apply (Hfilter _ session_id ss (mkSession fresh _ _ _)).
Qed.

Lemma add_then_remove_witness :
  removeMember "m2" (addMember "m2" (mkMemberInput "Bob" None None) scenario_store)
  = scenario_store.
Proof.
  refine (proj2 (proj1 (proj2 (add_then_remove scenario_store "m2"
            (mkMemberInput "Bob" None None) (mkSessionInput "t" "d" None))) _) _).
  - intros H. apply list_elem_of_singleton in H. discriminate.
  - apply Forall_cons. split; [discriminate|apply Forall_nil_2].
Defined.

(** ** Updating *)

(** X11. Applying the same patch to the same id twice is applying it once,
    for members and for sessions, whatever the patch carries. *)
Theorem update_idempotent (s : StoreShape) (id : Uuid)
    (mpatch : MemberPatch) (spatch : SessionPatch) :
  updateMember id mpatch (updateMember id mpatch s) = updateMember id mpatch s
  /\
  updateSession id spatch (updateSession id spatch s) = updateSession id spatch s.
Proof.
  unfold updateMember, updateSession. cbn [members sessions attendance].
  split; f_equal; rewrite <-list_fmap_compose; apply list_fmap_ext.
  - intros _ m _. simpl. destruct (decide (member_id m = id)) as [Hm|Hm].
    + destruct (decide (member_id (spread_member m mpatch) = id)); [|done].
      unfold spread_member. simpl.
      destruct mpatch as [[pid|] [pname|] [pemail|] [pphone|]]; reflexivity.
    + by rewrite decide_False.
  - intros _ x _. simpl. destruct (decide (session_id x = id)) as [Hx|Hx].
    + destruct (decide (session_id (spread_session x spatch) = id)); [|done].
      unfold spread_session. simpl.
      destruct spatch as [[pid|] [ptitle|] [pdate|] [pnotes|]]; reflexivity.
    + by rewrite decide_False.
Qed.

(** ** The selected session and the export *)

Lemma find_None {A} (P : A -> Prop) `{!forall x, Decision (P x)} (l : list A) :
  find P l = None <-> Forall (fun x => ~ P x) l.
Proof. unfold find. by rewrite fmap_None, list_find_None. Qed.

Lemma find_cons {A} (P : A -> Prop) `{!forall x, Decision (P x)} (x : A)
    (l : list A) :
  find P (x :: l) = if decide (P x) then Some x else find P l.
Proof.
  unfold find. cbn [list_find]. destruct (decide (P x)); [done|].
  by destruct (list_find P l) as [[i y]|].
Qed.

(** Dropping elements that do not match leaves the first match. *)
Lemma find_filter {A} (P Q : A -> Prop) `{!forall x, Decision (P x)}
    `{!forall x, Decision (Q x)} (l : list A) :
  (forall x, P x -> Q x) -> find P (filter Q l) = find P l.
Proof.
  intros HPQ. induction l as [|x l IH]; [done|].
  rewrite find_cons, filter_cons. destruct (decide (P x)) as [HP|HP].
  - rewrite decide_True by auto. rewrite find_cons. by rewrite decide_True.
  - destruct (decide (Q x)); [|done]. rewrite find_cons. by rewrite decide_False.
Qed.

Lemma exportCsvForSession_None (s : StoreShape) (sid : Uuid) :
  exportCsvForSession s sid = None <->
  Forall (fun sess => session_id sess <> sid) (sessions s).
Proof.
  rewrite <-(find_None (fun sess => session_id sess = sid)).
  unfold exportCsvForSession.
  by destruct (find (fun sess => session_id sess = sid) (sessions s)).
Qed.

(** X12. The export produces a file exactly when some session has the
    selected id.  After [removeSession] of the selected session it produces
    none, and when the selected id is not empty the selecting effect keeps
    that id: no session is selected although others may remain. *)
Theorem export_needs_selected_session (s : StoreShape) (sid : Uuid) :
  (exportCsvForSession s sid = None <->
   Forall (fun sess => session_id sess <> sid) (sessions s))
  /\
  exportCsvForSession (removeSession sid s) sid = None
  /\
  (sid <> EmptyString ->
   selected_session (removeSession sid s)
     (select_effect (removeSession sid s) sid) = None).
Proof.
  assert (Forall (fun sess => session_id sess <> sid)
                 (sessions (removeSession sid s))) as Hgone.
  { apply Forall_forall. intros x Hx. cbn [removeSession sessions] in Hx.
    by apply list_elem_of_filter in Hx as [Hx _]. }
  split; [apply exportCsvForSession_None|]. split.
  - by apply exportCsvForSession_None.
  - intros Hne. unfold select_effect.
    assert (truthy_string sid = true) as -> by by destruct sid.
    cbn [negb]. unfold selected_session.
    destruct (sessions (removeSession sid s) !! 0); by apply find_None.
Qed.

Lemma export_needs_selected_session_witness :
  selected_session (removeSession "s1" scenario_store)
    (select_effect (removeSession "s1" scenario_store) "s1") = None.
Proof.
  apply (proj2 (proj2 (export_needs_selected_session scenario_store "s1"))).
  discriminate.
Defined.

(** X13. While nothing is selected (the empty id) and the store has a
    session, the selecting effect selects the first session; and the
    initial selection of the tab is the first session of the store, or
    nothing when the store has none. *)
Theorem first_session_selected (s : StoreShape) :
  (forall first, sessions s !! 0 = Some first ->
     selected_session s (select_effect s EmptyString) = Some first)
  /\
  selected_session s (initial_sessionId s) = sessions s !! 0.
Proof.
  unfold selected_session, select_effect, initial_sessionId.
  destruct (sessions s) as [|first rest].
  - rewrite lookup_nil. split; [done|]. by apply find_None.
  - change ((first :: rest) !! 0) with (Some first). split.
    + intros ? [= <-]. cbn [truthy_string negb].
      rewrite find_cons. by rewrite decide_True.
    + destruct (truthy_string (session_id first)) eqn:Htruthy.
      * rewrite find_cons. by rewrite decide_True.
      * assert (session_id first = EmptyString) as Hid
          by (by destruct (session_id first)).
        rewrite find_cons. by rewrite decide_True.
Qed.

Lemma first_session_selected_witness :
  selected_session scenario_store (select_effect scenario_store EmptyString)
  = Some (mkSession "s1" "Week 1" "2025-01-01" None).
Proof.
  apply (proj1 (first_session_selected scenario_store)). reflexivity.
Defined.

Lemma last_wins_rows_ext (s s' : StoreShape) (sel : Session) :
  members s' = members s ->
  (forall mid, last_flag (session_id sel) mid (attendance s')
               = last_flag (session_id sel) mid (attendance s)) ->
  last_wins_rows s' sel = last_wins_rows s sel.
Proof.
  intros Hm Hflag. unfold last_wins_rows. rewrite Hm. f_equal.
  apply list_fmap_ext. intros _ m _. by rewrite Hflag.
Qed.

(** X14. Removing another session does not change the export of the
    selected one. *)
Theorem export_ignores_other_sessions (s : StoreShape) (sid other : Uuid) :
  other <> sid ->
  exportCsvForSession (removeSession other s) sid = exportCsvForSession s sid.
Proof.
  intros Hne.
  assert (find (fun sess => session_id sess = sid) (sessions (removeSession other s))
          = find (fun sess => session_id sess = sid) (sessions s)) as Hfind.
  { cbn [removeSession sessions]. apply find_filter. intros x ->. congruence. }
  destruct (find (fun sess => session_id sess = sid) (sessions s)) as [sel|] eqn:Hsel.
  - rewrite (exportCsvForSession_last_wins _ _ _ Hfind).
    rewrite (exportCsvForSession_last_wins _ _ _ Hsel).
    assert (last_wins_rows (removeSession other s) sel = last_wins_rows s sel)
      as ->; [|done].
    apply last_wins_rows_ext; [done|].
    intros mid. unfold last_flag. cbn [removeSession attendance].
    rewrite list_filter_filter.
    rewrite (list_filter_iff _ (same_key (session_id sel) mid)); [done|].
    intros a. unfold same_key. split; [tauto|]. intros [Hs Hm].
    split; [done|]. apply find_Some in Hsel as (i & _ & Hid & _). congruence.
  - transitivity (@None (string * string * string)).
    + apply exportCsvForSession_None.
      by apply (find_None (fun sess => session_id sess = sid)).
    + symmetry. apply exportCsvForSession_None.
      by apply (find_None (fun sess => session_id sess = sid)).
Qed.

Lemma export_ignores_other_sessions_witness :
  exportCsvForSession (removeSession "s2" scenario_store) "s1"
  = exportCsvForSession scenario_store "s1".
Proof. apply export_ignores_other_sessions. discriminate. Defined.

(** X15. After [removeMember id] the export of a session is the export of
    the store with the members of that id taken out of the members list and
    the attendance list left as it was: the rows of the other members are
    the rows they had. *)
Theorem export_after_removeMember (s : StoreShape) (id sid : Uuid) :
  exportCsvForSession (removeMember id s) sid
  = exportCsvForSession
      {| members := filter (fun m => member_id m <> id) (members s);
         sessions := sessions s; attendance := attendance s |} sid.
Proof.
  destruct (find (fun sess => session_id sess = sid) (sessions s)) as [sel|] eqn:Hsel.
  - rewrite (exportCsvForSession_last_wins (removeMember id s) _ sel) by done.
    rewrite (exportCsvForSession_last_wins (mkStore _ _ _) _ sel) by done.
    assert (last_wins_rows (removeMember id s) sel
            = last_wins_rows
                {| members := filter (fun m => member_id m <> id) (members s);
                   sessions := sessions s; attendance := attendance s |} sel)
      as ->; [|done].
    unfold last_wins_rows. cbn [removeMember members attendance].
    f_equal. apply Forall_fmap_ext, Forall_forall. intros m Hm.
    apply list_elem_of_filter in Hm as [Hm _].
    assert (last_flag (session_id sel) (member_id m)
              (filter (fun a => memberId a <> id) (attendance s))
            = last_flag (session_id sel) (member_id m) (attendance s))
      as ->; [|done].
    unfold last_flag. rewrite list_filter_filter.
    rewrite (list_filter_iff _ (same_key (session_id sel) (member_id m)));
      [done|].
    intros a. unfold same_key. split; [tauto|].
    intros [Hs Ha]. split; [done|]. congruence.
  - transitivity (@None (string * string * string)).
    + apply exportCsvForSession_None.
      by apply (find_None (fun sess => session_id sess = sid)).
    + symmetry. apply exportCsvForSession_None.
      by apply (find_None (fun sess => session_id sess = sid)).
Qed.

(** X16. The map of a session answers, for a member, with the flag of the
    last attendance record of that session and member, and has no entry for
    the member exactly when the store has no such record. *)
Theorem attendanceMap_reads_last_record (s : StoreShape) (sid mid : Uuid) :
  attendanceMap s sid !! mid
  = present <$> last (filter (fun a => sessionId a = sid /\ memberId a = mid)
                             (attendance s))
  /\
  (attendanceMap s sid !! mid = None <->
   Forall (fun a => ~ (sessionId a = sid /\ memberId a = mid)) (attendance s)).
Proof.
  split; [apply attendanceMap_lookup|].
  rewrite attendanceMap_lookup. unfold last_flag.
  rewrite fmap_None, last_None. split.
  - intros Hnil. apply Forall_forall. intros a Ha Hkey.
    eapply (filter_nil_not_elem_of (same_key sid mid)); eauto.
  - apply (filter_absent (same_key sid mid)).
Qed.

(** ** The field encoder is unambiguous *)

Lemma double_quotes_inj (l1 l2 : list ascii) :
  double_quotes l1 = double_quotes l2 -> l1 = l2.
Proof.
  unfold double_quotes. revert l2.
  induction l1 as [|c1 l1 IH]; intros [|c2 l2]; rewrite ?bind_cons.
  - done.
  - by destruct (decide (c2 = dquote)).
  - by destruct (decide (c1 = dquote)).
  - destruct (decide (c1 = dquote)) as [->|H1];
      destruct (decide (c2 = dquote)) as [->|H2]; simpl; intros [= H]; subst.
    + f_equal. by apply IH.
    + done.
    + done.
    + f_equal. by apply IH.
Qed.

Lemma quoted_chars_inj (l1 l2 : list ascii) :
  quoted_chars l1 = quoted_chars l2 -> l1 = l2.
Proof.
  unfold quoted_chars. intros [= H]. apply double_quotes_inj.
  by apply app_inj_tail in H as [H _].
Qed.

Lemma quoted_not_clean (a b : string) :
  regex_test_class [dquote; comma; newline] a = false ->
  chars a <> quoted_chars (chars b).
Proof.
  intros Hclean Heq.
  assert (regex_test_class [dquote; comma; newline] a = true) as Htrue; [|congruence].
  apply regex_test_class_true. exists dquote. split.
  - apply elem_of_cons. by left.
  - unfold contains_char. rewrite Heq. apply elem_of_cons. by left.
Qed.

(** X17. Two fields with the same encoding are the same field. *)
Theorem csv_field_injective (a b : string) :
  csv_field a = csv_field b -> a = b.
Proof.
  intros Heq. apply (f_equal String.list_ascii_of_string) in Heq.
  rewrite !csv_field_chars in Heq. apply chars_inj.
  destruct (regex_test_class _ a) eqn:Ha, (regex_test_class _ b) eqn:Hb.
  - by apply quoted_chars_inj.
  - symmetry in Heq. by apply quoted_not_clean in Heq.
  - by apply quoted_not_clean in Heq.
  - done.
Qed.

Lemma csv_field_injective_witness : jane_field = jane_field.
Proof. apply csv_field_injective. reflexivity. Defined.

(** ** Import and load at the untyped boundary *)

(** X18. The shape check looks at the three fields and at nothing else:
    a candidate that is not an object ([null], a boolean, a number, a
    string, an array) is refused with the invalid-format message and the
    snapshot kept, while an object with the three arrays is accepted
    whatever the arrays hold. *)
Theorem import_candidate_shape_only (state : json) :
  (forall x, (forall props, x <> JObj props) ->
     import_candidate x state = (state, Some "Invalid backup format"%string))
  /\
  (forall ms ss att,
     import_candidate
       (JObj [("members"%string, JArr ms); ("sessions"%string, JArr ss);
              ("attendance"%string, JArr att)]) state
     = (JObj [("members"%string, JArr ms); ("sessions"%string, JArr ss);
              ("attendance"%string, JArr att)], None)).
Proof.
  split; [|done]. intros x Hx. unfold import_candidate, isStoreShape.
  destruct x as [|b|q|str|items|props]; simpl; rewrite ?andb_false_r; try done.
  by destruct (Hx props).
Qed.

Lemma import_candidate_shape_only_witness :
  import_candidate (JArr [JObj []]) empty_store_json
  = (empty_store_json, Some "Invalid backup format"%string).
Proof.
  apply (proj1 (import_candidate_shape_only empty_store_json)). discriminate.
Defined.

(** X19. The import handler is all or nothing and never throws: either the
    text parses to a value that passes the shape check, which becomes the
    snapshot with no message; or the snapshot is kept and one message is
    shown, the invalid-format one when the text parses and the parse-failure
    one when it does not. *)
Theorem onImport_onload_all_or_nothing (parse : string -> outcome json)
    (text : string) (state : json) :
  (exists data, parse text = Returned data /\ isStoreShape data = true /\
     onImport_onload parse text state = Returned (data, None))
  \/
  (exists data, parse text = Returned data /\ isStoreShape data = false /\
     onImport_onload parse text state
     = Returned (state, Some "Invalid backup format"%string))
  \/
  (parse text = Thrown /\
   onImport_onload parse text state
   = Returned (state, Some "Failed to parse JSON"%string)).
Proof.
  unfold onImport_onload, import_candidate.
  destruct (parse text) as [data|] eqn:Hparse; simpl.
  - destruct (isStoreShape data) eqn:Hshape.
    + left. by exists data.
    + right. left. by exists data.
  - right. by right.
Qed.

(** X20. The load effect runs no shape check: whatever a non-empty stored
    text parses to becomes the state, also a value that the import would
    refuse; an empty stored text leaves the state as it is without being
    parsed. *)
Theorem load_no_shape_check (parse : string -> outcome json)
    (localStorage : gmap string string) (key : string) (state : json) :
  (forall text data,
     localStorage !! key = Some text -> text <> EmptyString ->
     parse text = Returned data ->
     load parse localStorage key state = Returned data)
  /\
  (localStorage !! key = Some EmptyString ->
   load parse localStorage key state = Returned state).
Proof.
  split.
  - intros text data Hslot Hne Hparse. destruct text as [|c text]; [done|].
    by apply (load_parsed _ _ _ _ c text).
  - apply load_empty_text.
Qed.

Lemma load_no_shape_check_witness :
  load (fun _ => Returned JNull) {[ STORE_KEY := "null"%string ]} STORE_KEY
       empty_store_json
  = Returned JNull
  /\ isStoreShape JNull = false.
Proof.
  split; [|reflexivity].
  apply (proj1 (load_no_shape_check (fun _ => Returned JNull)
                  {[ STORE_KEY := "null"%string ]} STORE_KEY empty_store_json)
           "null"%string JNull).
  - apply lookup_singleton_eq.
  - discriminate.
  - reflexivity.
Defined.

(** ** Saving *)

(** X21. The save effect never throws and touches no other key.  When the
    storage accepts the write, a later load of the key returns the saved
    state, provided the written text is not empty and [JSON.parse] reads
    back what [JSON.stringify] wrote; when the storage refuses the write,
    the storage is left as it was. *)
Theorem save_then_load (stringify : json -> string)
    (fits : gmap string string -> bool) (parse : string -> outcome json)
    (localStorage : gmap string string) (key : string) (state : json) :
  (exists after,
     save stringify fits localStorage key state = Returned after /\
     forall k, k <> key -> after !! k = localStorage !! k)
  /\
  (fits (<[key := stringify state]> localStorage) = true ->
   stringify state <> EmptyString ->
   parse (stringify state) = Returned state ->
   forall after initial,
     save stringify fits localStorage key state = Returned after ->
     load parse after key initial = Returned state)
  /\
  (fits (<[key := stringify state]> localStorage) = false ->
   save stringify fits localStorage key state = Returned localStorage).
Proof.
  unfold save, setItem. split; [|split].
  - destruct (fits _); simpl.
    + eexists. split; [done|]. intros k Hk. by rewrite lookup_insert_ne.
    + by eexists.
  - intros -> Hne Hparse after initial [= <-].
    destruct (stringify state) as [|c text] eqn:Htext; [done|].
    apply (load_parsed _ _ _ _ c text); [apply lookup_insert_eq|done].
  - by intros ->.
Qed.

Lemma save_then_load_witness :
  load (fun _ => Returned JNull) (<[STORE_KEY := "null"%string]> ∅) STORE_KEY
       empty_store_json
  = Returned JNull.
Proof.
  apply (proj1 (proj2 (save_then_load (fun _ => "null"%string) (fun _ => true)
                         (fun _ => Returned JNull) ∅ STORE_KEY JNull))
           eq_refl ltac:(discriminate) eq_refl
           (<[STORE_KEY := "null"%string]> ∅) empty_store_json eq_refl).
Defined.

(** ** The add forms *)

Lemma or_undefined_not_empty (x : string) : or_undefined x <> Some EmptyString.
Proof. by destruct x. Qed.

Lemma truthy_string_false (x : string) :
  truthy_string x = false <-> x = EmptyString.
Proof. by destruct x. Qed.

(** X22. The add button of the members tab does nothing when the name is
    empty after trimming; otherwise it appends one member with the
    generated id, the trimmed name, which is not empty, and an email and a
    phone that are absent rather than empty, and it clears the form.  The
    add button of the sessions tab does the same with the title and the
    notes, takes the date as typed, and resets the date field to today. *)
Theorem add_forms (trim : string -> string) (fresh today : Uuid)
    (mform : MemberForm) (sform : SessionForm) (s : StoreShape) :
  (trim (form_name mform) = EmptyString ->
   MembersManager_add trim fresh mform s = (s, mform))
  /\
  (trim (form_name mform) <> EmptyString ->
   exists m,
     MembersManager_add trim fresh mform s
     = ({| members := members s ++ [m]; sessions := sessions s;
           attendance := attendance s |},
        mkMemberForm EmptyString EmptyString EmptyString) /\
     member_id m = fresh /\ member_name m = trim (form_name mform) /\
     member_email m <> Some EmptyString /\ member_phone m <> Some EmptyString)
  /\
  (trim (form_title sform) = EmptyString ->
   SessionsManager_add trim fresh today sform s = (s, sform))
  /\
  (trim (form_title sform) <> EmptyString ->
   exists x,
     SessionsManager_add trim fresh today sform s
     = ({| members := members s; sessions := sessions s ++ [x];
           attendance := attendance s |},
        mkSessionForm EmptyString today EmptyString) /\
     session_id x = fresh /\ session_title x = trim (form_title sform) /\
     session_dateISO x = form_dateISO sform /\
     session_notes x <> Some EmptyString).
Proof.
  unfold MembersManager_add, SessionsManager_add. split_and!.
  - by intros ->.
  - intros Hne.
    destruct (truthy_string (trim (form_name mform))) eqn:Ht;
      [|by apply truthy_string_false in Ht].
    eexists. split; [reflexivity|]. simpl.
    split_and!; try done; apply or_undefined_not_empty.
  - by intros ->.
  - intros Hne.
    destruct (truthy_string (trim (form_title sform))) eqn:Ht;
      [|by apply truthy_string_false in Ht].
    eexists. split; [reflexivity|]. simpl.
    split_and!; try done; apply or_undefined_not_empty.
Qed.

Lemma add_forms_witness :
  MembersManager_add (fun x => x) "m1" (mkMemberForm EmptyString "a@b" EmptyString) DEFAULT_STORE
  = (DEFAULT_STORE, mkMemberForm EmptyString "a@b" EmptyString).
Proof.
  apply (proj1 (add_forms (fun x => x) "m1" "2025-01-01"
                  (mkMemberForm EmptyString "a@b" EmptyString) (mkSessionForm "t" "d" "n")
                  DEFAULT_STORE)).
  reflexivity.
Defined.
